(** * temporalio.bridge.worker: payload transformation engine and worker handle

    A shallow embedding of [temporalio/bridge/worker.py]: the payload
    conversions between the bridge and the API message families, the
    retry-policy wire conversion, the worker handle's shutdown life cycle and
    the two traversals [decode_activation] and [encode_completion] that push
    every payload of an activation or a completion through a codec.

    Protobuf messages are records, [oneof] fields are inductive types with
    one constructor per member the code names plus one for everything else,
    optional sub-messages are [option]s, repeated fields are lists and
    metadata mappings are [gmap]s.  Coroutines run to completion one after the
    other, so an [await] is a sequencing point of a state-passing program. *)

From Stdlib Require Import ZArith Lia.
From stdpp Require Import gmap strings list fin_maps.

(** ** Payloads *)

Definition bytes := list Byte.byte.

(** [temporalio.bridge.proto.common.Payload] *)
Record BridgePayload := mkBridgePayload {
  bridge_metadata : gmap string bytes;
  bridge_data : bytes
}.

(** [temporalio.api.common.v1.Payload] *)
Record ApiPayload := mkApiPayload {
  api_metadata : gmap string bytes;
  api_data : bytes
}.

Definition from_bridge_payload (payload : BridgePayload) : ApiPayload :=
  {| api_metadata := bridge_metadata payload; api_data := bridge_data payload |}.

Definition from_bridge_payloads (payloads : list BridgePayload) : list ApiPayload :=
  from_bridge_payload <$> payloads.

Definition to_bridge_payload (payload : ApiPayload) : BridgePayload :=
  {| bridge_metadata := api_metadata payload; bridge_data := api_data payload |}.

Definition to_bridge_payloads (payloads : list ApiPayload) : list BridgePayload :=
  to_bridge_payload <$> payloads.

(** [m.clear()] and [m.update(n)] on a metadata mapping: the entries of [n]
    win over those already in [m]. *)
Definition metadata_clear (m : gmap string bytes) : gmap string bytes := ∅.
Definition metadata_update (m n : gmap string bytes) : gmap string bytes := n ∪ m.


(** ** Exceptions *)

Inductive exn :=
| IndexError                 (* list index out of range *)
| AttributeError             (* attribute looked up on [None] *)
| Raised (what : string).    (* raised by a collaborator: the codec, the core *)

(** ** Retry policy *)

(** [datetime.timedelta]: a whole number of microseconds; it is falsy
    exactly when it is zero. *)
Definition timedelta := Z.

Definition timedelta_truthy (td : timedelta) : bool := negb (td =? 0)%Z.

(** [google.protobuf.Duration] comes from the protobuf runtime: its carrier
    and its two conversions are taken as given. *)
Class DurationOps := {
  Duration : Type;
  Duration_default : Duration;
  FromTimedelta : timedelta -> Duration;
  ToTimedelta : Duration -> timedelta
}.

(** The runtime's own representation: seconds and nanoseconds of one sign. *)
Record SecondsNanos := { seconds : Z; nanos : Z }.

Definition NormalizeDuration (s n : Z) : SecondsNanos :=
  if ((s <? 0) && (0 <? n))%Z
  then {| seconds := s + 1; nanos := n - 1000000000 |}
  else {| seconds := s; nanos := n |}.

Definition SecondsNanos_ops : DurationOps := {|
  Duration := SecondsNanos;
  Duration_default := {| seconds := 0; nanos := 0 |};
  FromTimedelta td := NormalizeDuration (td / 1000000) ((td mod 1000000) * 1000);
  ToTimedelta d := (seconds d * 1000000 + Z.quot (nanos d) 1000)%Z
|}.

(** An [int32] field of a wire message: it holds a value of the range, and
    assigning any other integer to it raises [ValueError]. *)
Definition in_int32 (z : Z) : bool :=
  ((-2147483648 <=? z) && (z <=? 2147483647))%Z.

Record Int32 := mkInt32 {
  int32_value : Z;
  int32_in_range : Is_true (in_int32 int32_value)
}.

Definition ValueError : exn := Raised "ValueError".

Definition int32_assign (z : Z) : exn + Int32 :=
  match decide (Is_true (in_int32 z)) with
  | left H => inr (mkInt32 z H)
  | right _ => inl ValueError
  end.

Definition int32_zero : Int32 := mkInt32 0 I.

Section RetryPolicyModel.
Context {dur : DurationOps}.
(** [float]: the coefficient is copied, never computed with. *)
Context {float : Type}.

(** [temporalio.common.RetryPolicy] *)
Record RetryPolicy := mkRetryPolicy {
  initial_interval : timedelta;
  backoff_coefficient : float;
  maximum_interval : option timedelta;
  maximum_attempts : Z;
  non_retryable_error_types : option (list string)
}.

(** [temporalio.bridge.proto.common.RetryPolicy]; a message field that was
    never written is [None] and reads as the default message. *)
Record ProtoRetryPolicy := mkProtoRetryPolicy {
  proto_initial_interval : option Duration;
  proto_backoff_coefficient : float;
  proto_maximum_interval : option Duration;
  proto_maximum_attempts : Int32;
  proto_non_retryable_error_types : list string
}.

Definition retry_policy_from_proto (p : ProtoRetryPolicy) : RetryPolicy :=
  {| initial_interval := ToTimedelta (default Duration_default (proto_initial_interval p));
     backoff_coefficient := proto_backoff_coefficient p;
     maximum_interval :=
       match proto_maximum_interval p with       (* HasField("maximum_interval") *)
       | Some d => Some (ToTimedelta d)
       | None => None
       end;
     maximum_attempts := int32_value (proto_maximum_attempts p);
     non_retryable_error_types := Some (proto_non_retryable_error_types p) |}.

(** [if p.maximum_interval:] and [if p.non_retryable_error_types:] *)
Definition option_timedelta_truthy (o : option timedelta) : bool :=
  match o with Some td => timedelta_truthy td | None => false end.

Definition option_list_truthy {A} (o : option (list A)) : bool :=
  match o with Some (_ :: _) => true | _ => false end.

(** The message [v] is updated in place, statement by statement; the
    message is returned as the function leaves it, with the exception that
    ended it, if any: the assignment to [maximum_attempts] raises when the
    policy's integer does not fit the field, after the intervals and the
    coefficient have been written and before the error types are added. *)
Definition retry_policy_to_proto (p : RetryPolicy) (v : ProtoRetryPolicy)
  : ProtoRetryPolicy * option exn :=
  let initial := Some (FromTimedelta (initial_interval p)) in
  let coefficient := backoff_coefficient p in
  let maximum :=
    if option_timedelta_truthy (maximum_interval p)
    then Some (FromTimedelta (default 0%Z (maximum_interval p)))
    else proto_maximum_interval v in
  match int32_assign (maximum_attempts p) with
  | inl e =>
      ({| proto_initial_interval := initial;
          proto_backoff_coefficient := coefficient;
          proto_maximum_interval := maximum;
          proto_maximum_attempts := proto_maximum_attempts v;
          proto_non_retryable_error_types := proto_non_retryable_error_types v |},
       Some e)
  | inr attempts =>
      let types :=
        if option_list_truthy (non_retryable_error_types p)
        then proto_non_retryable_error_types v ++ default [] (non_retryable_error_types p)
        else proto_non_retryable_error_types v in
      ({| proto_initial_interval := initial;
          proto_backoff_coefficient := coefficient;
          proto_maximum_interval := maximum;
          proto_maximum_attempts := attempts;
          proto_non_retryable_error_types := types |},
       None)
  end.

(** A message as its constructor leaves it; the coefficient's default is
    overwritten by every conversion, so any value stands for it. *)
Definition fresh_proto (c : float) : ProtoRetryPolicy :=
  {| proto_initial_interval := None;
     proto_backoff_coefficient := c;
     proto_maximum_interval := None;
     proto_maximum_attempts := int32_zero;
     proto_non_retryable_error_types := [] |}.

(** What a policy reads as once its absent list of error types is taken to
    be the empty list. *)
Definition with_empty_error_types (p : RetryPolicy) : RetryPolicy :=
  {| initial_interval := initial_interval p;
     backoff_coefficient := backoff_coefficient p;
     maximum_interval := maximum_interval p;
     maximum_attempts := maximum_attempts p;
     non_retryable_error_types := Some (default [] (non_retryable_error_types p)) |}.
End RetryPolicyModel.

Arguments RetryPolicy : clear implicits.
Arguments ProtoRetryPolicy : clear implicits.

(** ** Worker handle *)

(** The reference that [temporal_sdk_bridge.new_worker] hands out belongs to
    the native core: its carrier and its methods are taken as given.  A
    method returns the reference as the call leaves it, and the exception it
    raised, if any. *)
Class NativeWorker := {
  WorkerRef : Type;
  ref_shutdown : WorkerRef -> WorkerRef * option exn;
  ref_finalize_shutdown : WorkerRef -> WorkerRef * option exn;
  ref_request_workflow_eviction : string -> WorkerRef -> WorkerRef * option exn
}.

Section WorkerModel.
Context {core : NativeWorker}.

(** [class Worker]: its only attribute is [_ref], which is [None] once
    [finalize_shutdown] has been entered. *)
Record Worker := mkWorker { _ref : option WorkerRef }.

(** [self._ref.m(...)]: on [None] the attribute lookup raises before
    anything is called. *)
Definition on_ref (m : WorkerRef -> WorkerRef * option exn) (self : Worker)
  : Worker * option exn :=
  match _ref self with
  | None => (self, Some AttributeError)
  | Some ref => let '(ref, r) := m ref in ({| _ref := Some ref |}, r)
  end.

Definition request_workflow_eviction (run_id : string) : Worker -> Worker * option exn :=
  on_ref (ref_request_workflow_eviction run_id).

Definition shutdown : Worker -> Worker * option exn :=
  on_ref ref_shutdown.

Definition finalize_shutdown (self : Worker) : Worker * option exn :=
  let ref := _ref self in
  let self := {| _ref := None |} in
  match ref with
  | None => (self, Some AttributeError)
  | Some ref => let '(_, r) := ref_finalize_shutdown ref in (self, r)
  end.

(** A retry of the shutdown sequence: [shutdown()], then
    [finalize_shutdown()]. *)
Definition retry_shutdown (self : Worker) : Worker * option exn :=
  let '(self, r) := shutdown self in
  match r with
  | Some e => (self, Some e)
  | None => finalize_shutdown self
  end.
End WorkerModel.

Arguments Worker : clear implicits.

(** Modelled from the spec: the native worker behind the reference (the
    compiled bridge module is not among the Python sources), after the
    handle's state machine Active, ShuttingDown, Drained, Finalized:
    [shutdown] waits for the drain, [finalize_shutdown] succeeds from Drained
    only and otherwise fails without finalizing, and nothing leaves
    Finalized. *)
Inductive CoreState := Active | ShuttingDown | Drained | Finalized.

Definition LifecycleViolation : exn := Raised "LifecycleViolation".

Definition core_shutdown (s : CoreState) : CoreState * option exn :=
  match s with
  | Finalized => (Finalized, Some LifecycleViolation)
  | _ => (Drained, None)
  end.

Definition core_finalize_shutdown (s : CoreState) : CoreState * option exn :=
  match s with
  | Drained => (Finalized, None)
  | _ => (s, Some LifecycleViolation)
  end.

Definition core_request_workflow_eviction (run_id : string) (s : CoreState)
  : CoreState * option exn :=
  match s with
  | Finalized => (Finalized, Some LifecycleViolation)
  | _ => (s, None)
  end.

Definition spec_core : NativeWorker := {|
  WorkerRef := CoreState;
  ref_shutdown := core_shutdown;
  ref_finalize_shutdown := core_finalize_shutdown;
  ref_request_workflow_eviction := core_request_workflow_eviction
|}.

(** ** The transformation engine *)

(** [temporalio.converter.PayloadCodec]: two coroutines over API payloads.
    Whatever they read and write apart from the messages (a key server, a
    rate limiter) is the state [St]; a call ends with a list of payloads or
    with an exception.  The payloads of a result are taken as messages of
    their own: a codec that hands back the very objects it was given, or
    writes into them, is outside this model. *)
Record PayloadCodec (St : Type) := {
  decode : list ApiPayload -> St -> St * (exn + list ApiPayload);
  encode : list ApiPayload -> St -> St * (exn + list ApiPayload)
}.
Arguments decode {St}.
Arguments encode {St}.

(** What the traversals use and this file does not define: the failure
    message, the fields of a message that the traversals never look at, and
    [temporalio.exceptions.decode_failure] and [encode_failure], which
    rewrite a failure in place with the help of the codec. *)
Class Collaborators := {
  Failure : Type;
  Other : Type;
  CodecState : Type;
  exceptions_decode_failure :
    PayloadCodec CodecState -> Failure -> CodecState -> Failure * CodecState * option exn;
  exceptions_encode_failure :
    PayloadCodec CodecState -> Failure -> CodecState -> Failure * CodecState * option exn
}.

Section Engine.
Context {collab : Collaborators}.

(** One call that a traversal makes on a collaborator, with its argument. *)
Inductive Call :=
| PayloadDecode (payloads : list ApiPayload)
| PayloadEncode (payloads : list ApiPayload)
| FailureDecode (failure : Failure)
| FailureEncode (failure : Failure).

(** The codec's state and the calls made so far, oldest first. *)
Record World := mkWorld { codec_state : CodecState; calls : list Call }.

(** An awaitable that yields an [A], and a coroutine returning [None]
    that updates its argument of type [T] in place: the caller sees the
    argument as the coroutine left it, also when it raised. *)
Definition Coroutine (A : Type) : Type := World -> World * (exn + A).
Definition Proc (T : Type) : Type := T -> World -> T * World * option exn.

Definition codec_decode (codec : PayloadCodec CodecState) (payloads : list ApiPayload)
  : Coroutine (list ApiPayload) :=
  fun w =>
    let '(s, r) := decode codec payloads (codec_state w) in
    ({| codec_state := s; calls := calls w ++ [PayloadDecode payloads] |}, r).

Definition codec_encode (codec : PayloadCodec CodecState) (payloads : list ApiPayload)
  : Coroutine (list ApiPayload) :=
  fun w =>
    let '(s, r) := encode codec payloads (codec_state w) in
    ({| codec_state := s; calls := calls w ++ [PayloadEncode payloads] |}, r).

Definition decode_failure (codec : PayloadCodec CodecState) : Proc Failure :=
  fun failure w =>
    let '(f, s, r) := exceptions_decode_failure codec failure (codec_state w) in
    (f, {| codec_state := s; calls := calls w ++ [FailureDecode failure] |}, r).

Definition encode_failure (codec : PayloadCodec CodecState) : Proc Failure :=
  fun failure w =>
    let '(f, s, r) := exceptions_encode_failure codec failure (codec_state w) in
    (f, {| codec_state := s; calls := calls w ++ [FailureEncode failure] |}, r).

(** *** Control flow *)

Definition skip {T} : Proc T := fun t w => (t, w, None).

(** Run [m] on a part of a message; [rebuild] puts the part back.  When
    [m] raised, the message keeps the part as [m] left it and the
    exception goes on; otherwise [k] continues. *)
Definition and_then {A T} (m : A * World * option exn) (rebuild : A -> T)
    (k : A -> World -> T * World * option exn) : T * World * option exn :=
  let '(a, w, r) := m in
  match r with
  | Some e => (rebuild a, w, Some e)
  | None => k a w
  end.

Definition within {A T} (m : A * World * option exn) (rebuild : A -> T)
  : T * World * option exn :=
  and_then m rebuild (fun a w => (rebuild a, w, None)).

(** [if msg.HasField(f): await p(msg.f)] *)
Definition if_present {T} (p : Proc T) : Proc (option T) :=
  fun o w =>
    match o with
    | None => (None, w, None)
    | Some t => within (p t w) Some
    end.

(** [for x in xs: await p(x)] *)
Fixpoint for_each {T} (p : Proc T) (xs : list T) (w : World)
  : list T * World * option exn :=
  match xs with
  | [] => ([], w, None)
  | x :: rest =>
      and_then (p x w) (fun x => x :: rest)
        (fun x w => within (for_each p rest w) (fun rest => x :: rest))
  end.

(** [for val in mapping.values(): await p(val)]; a mapping is listed in
    the order in which it iterates. *)
Definition for_each_value {T} (p : Proc T) : Proc (list (string * T)) :=
  for_each (fun kv w => within (p kv.2 w) (fun v => (kv.1, v))).

(** *** Payload helpers *)

Definition _apply_to_bridge_payloads
    (cb : list ApiPayload -> Coroutine (list ApiPayload)) : Proc (list BridgePayload) :=
  fun payloads w =>
    if (length payloads =? 0)%nat then (payloads, w, None)
    else
      match cb (from_bridge_payloads payloads) w with
      | (w, inl e) => (payloads, w, Some e)
      | (w, inr result) =>
          let new_payloads := to_bridge_payloads result in
          let payloads := [] in                      (* del payloads[:] *)
          (payloads ++ new_payloads, w, None)        (* payloads.extend(new_payloads) *)
      end.

Definition _apply_to_bridge_payload
    (cb : list ApiPayload -> Coroutine (list ApiPayload)) : Proc BridgePayload :=
  fun payload w =>
    match cb [from_bridge_payload payload] w with
    | (w, inl e) => (payload, w, Some e)
    | (w, inr []) => (payload, w, Some IndexError)   (* (...)[0] *)
    | (w, inr (new_payload :: _)) =>
        let metadata := metadata_clear (bridge_metadata payload) in
        let metadata := metadata_update metadata (api_metadata new_payload) in
        ({| bridge_metadata := metadata; bridge_data := api_data new_payload |}, w, None)
    end.

Definition _decode_bridge_payloads (codec : PayloadCodec CodecState) : Proc (list BridgePayload) :=
  _apply_to_bridge_payloads (codec_decode codec).

Definition _decode_bridge_payload (codec : PayloadCodec CodecState) : Proc BridgePayload :=
  _apply_to_bridge_payload (codec_decode codec).

Definition _encode_bridge_payloads (codec : PayloadCodec CodecState) : Proc (list BridgePayload) :=
  _apply_to_bridge_payloads (codec_encode codec).

Definition _encode_bridge_payload (codec : PayloadCodec CodecState) : Proc BridgePayload :=
  _apply_to_bridge_payload (codec_encode codec).

(** The body of the loop over [start_workflow.memo.fields.values()]: the
    memo holds API payloads, so the codec is called on the value itself.
    The result is read as a message of its own (see [PayloadCodec]): were it
    the very object passed in, clearing the value's metadata would clear the
    result's too, and that case is not covered here. *)
Definition decode_memo_value (codec : PayloadCodec CodecState) : Proc ApiPayload :=
  fun val w =>
    match codec_decode codec [val] w with
    | (w, inl e) => (val, w, Some e)
    | (w, inr []) => (val, w, Some IndexError)
    | (w, inr (new_payload :: _)) =>
        let metadata := metadata_clear (api_metadata val) in
        let metadata := metadata_update metadata (api_metadata new_payload) in
        ({| api_metadata := metadata; api_data := api_data new_payload |}, w, None)
    end.

(** *** Activations *)

(** The [oneof] of an activity resolution and of a child-workflow result:
    the three members the traversal names, and any other state of the
    [oneof] (another member, or none set).  [other] stands for the fields
    next to the one the traversal reaches. *)
Inductive Outcome :=
| cancelled (failure : Failure) (other : Other)
| completed (result : option BridgePayload) (other : Other)
| failed (failure : Failure) (other : Other)
| outcome_other (other : Other).

(** The [oneof] of [resolve_child_workflow_execution_start]. *)
Inductive StartStatus :=
| start_cancelled (failure : Failure) (other : Other)
| start_other (other : Other).

(** [WorkflowActivationJob]: its [oneof variant]. *)
Inductive Job :=
| cancel_workflow (details : list BridgePayload) (other : Other)
| query_workflow (arguments : list BridgePayload) (other : Other)
| resolve_activity (result : Outcome) (other : Other)
| resolve_child_workflow_execution (result : Outcome) (other : Other)
| resolve_child_workflow_execution_start (status : StartStatus) (other : Other)
| resolve_request_cancel_external_workflow (failure : option Failure) (other : Other)
| resolve_signal_external_workflow (failure : option Failure) (other : Other)
| signal_workflow (input : list BridgePayload) (other : Other)
| start_workflow (arguments : list BridgePayload) (continued_failure : option Failure)
    (memo : list (string * ApiPayload)) (other : Other)
| job_other (other : Other).

Record WorkflowActivation := mkActivation { jobs : list Job; activation_other : Other }.

(** [job.resolve_activity.result]: [cancelled], else [completed] and then
    its [result] if set, else [failed]. *)
Definition decode_activity_result (codec : PayloadCodec CodecState) : Proc Outcome :=
  fun result w =>
    match result with
    | cancelled failure other =>
        within (decode_failure codec failure w) (fun f => cancelled f other)
    | completed res other =>
        within (if_present (_decode_bridge_payload codec) res w) (fun r => completed r other)
    | failed failure other =>
        within (decode_failure codec failure w) (fun f => failed f other)
    | outcome_other _ => skip result w
    end.

(** [job.resolve_child_workflow_execution.result]: [cancelled], else
    [completed] with its [result] set, else [failed]. *)
Definition decode_child_result (codec : PayloadCodec CodecState) : Proc Outcome :=
  fun result w =>
    match result with
    | cancelled failure other =>
        within (decode_failure codec failure w) (fun f => cancelled f other)
    | completed (Some res) other =>
        within (_decode_bridge_payload codec res w) (fun r => completed (Some r) other)
    | failed failure other =>
        within (decode_failure codec failure w) (fun f => failed f other)
    | _ => skip result w
    end.

Definition decode_job (codec : PayloadCodec CodecState) : Proc Job :=
  fun job w =>
    match job with
    | cancel_workflow details other =>
        within (_decode_bridge_payloads codec details w) (fun d => cancel_workflow d other)
    | query_workflow arguments other =>
        within (_decode_bridge_payloads codec arguments w) (fun a => query_workflow a other)
    | resolve_activity result other =>
        within (decode_activity_result codec result w) (fun r => resolve_activity r other)
    | resolve_child_workflow_execution result other =>
        within (decode_child_result codec result w)
          (fun r => resolve_child_workflow_execution r other)
    | resolve_child_workflow_execution_start status other =>
        match status with
        | start_cancelled failure other' =>
            within (decode_failure codec failure w)
              (fun f => resolve_child_workflow_execution_start (start_cancelled f other') other)
        | start_other _ => skip job w
        end
    | resolve_request_cancel_external_workflow failure other =>
        within (if_present (decode_failure codec) failure w)
          (fun f => resolve_request_cancel_external_workflow f other)
    | resolve_signal_external_workflow failure other =>
        within (if_present (decode_failure codec) failure w)
          (fun f => resolve_signal_external_workflow f other)
    | signal_workflow input other =>
        within (_decode_bridge_payloads codec input w) (fun i => signal_workflow i other)
    | start_workflow arguments continued_failure memo other =>
        and_then (_decode_bridge_payloads codec arguments w)
          (fun a => start_workflow a continued_failure memo other)
          (fun arguments w =>
        and_then (if_present (decode_failure codec) continued_failure w)
          (fun c => start_workflow arguments c memo other)
          (fun continued_failure w =>
        within (for_each_value (decode_memo_value codec) memo w)
          (fun m => start_workflow arguments continued_failure m other)))
    | job_other _ => skip job w
    end.

Definition decode_activation (codec : PayloadCodec CodecState) : Proc WorkflowActivation :=
  fun act w =>
    within (for_each (decode_job codec) (jobs act) w)
      (fun js => {| jobs := js; activation_other := activation_other act |}).

(** *** Completions *)

(** The [oneof] of [respond_to_query]. *)
Inductive QueryResult :=
| query_failed (failure : Failure)
| query_succeeded (response : option BridgePayload) (other : Other)
| query_other (other : Other).

(** [WorkflowCommand]: its [oneof variant]. *)
Inductive Command :=
| complete_workflow_execution (result : option BridgePayload) (other : Other)
| continue_as_new_workflow_execution (arguments : list BridgePayload)
    (memo : list (string * BridgePayload)) (other : Other)
| fail_workflow_execution (failure : Failure) (other : Other)
| respond_to_query (variant : QueryResult) (other : Other)
| schedule_activity (arguments : list BridgePayload) (other : Other)
| schedule_local_activity (arguments : list BridgePayload) (other : Other)
| signal_external_workflow_execution (args : list BridgePayload) (other : Other)
| start_child_workflow_execution (input : list BridgePayload)
    (memo : list (string * BridgePayload)) (other : Other)
| command_other (other : Other).

(** [WorkflowActivationCompletion]: its [oneof status] next to the other
    fields. *)
Inductive Status :=
| status_failed (failure : Failure) (other : Other)
| status_successful (commands : list Command) (other : Other)
| status_unset.

Record WorkflowActivationCompletion := mkCompletion {
  status : Status;
  completion_other : Other
}.

Definition encode_command (codec : PayloadCodec CodecState) : Proc Command :=
  fun command w =>
    match command with
    | complete_workflow_execution result other =>
        within (if_present (_encode_bridge_payload codec) result w)
          (fun r => complete_workflow_execution r other)
    | continue_as_new_workflow_execution arguments memo other =>
        and_then (_encode_bridge_payloads codec arguments w)
          (fun a => continue_as_new_workflow_execution a memo other)
          (fun arguments w =>
        within (for_each_value (_encode_bridge_payload codec) memo w)
          (fun m => continue_as_new_workflow_execution arguments m other))
    | fail_workflow_execution failure other =>
        within (encode_failure codec failure w) (fun f => fail_workflow_execution f other)
    | respond_to_query variant other =>
        match variant with
        | query_failed failure =>
            within (encode_failure codec failure w)
              (fun f => respond_to_query (query_failed f) other)
        | query_succeeded (Some response) other' =>
            within (_encode_bridge_payload codec response w)
              (fun r => respond_to_query (query_succeeded (Some r) other') other)
        | _ => skip command w
        end
    | schedule_activity arguments other =>
        within (_encode_bridge_payloads codec arguments w) (fun a => schedule_activity a other)
    | schedule_local_activity arguments other =>
        within (_encode_bridge_payloads codec arguments w)
          (fun a => schedule_local_activity a other)
    | signal_external_workflow_execution args other =>
        within (_encode_bridge_payloads codec args w)
          (fun a => signal_external_workflow_execution a other)
    | start_child_workflow_execution input memo other =>
        and_then (_encode_bridge_payloads codec input w)
          (fun i => start_child_workflow_execution i memo other)
          (fun input w =>
        within (for_each_value (_encode_bridge_payload codec) memo w)
          (fun m => start_child_workflow_execution input m other))
    | command_other _ => skip command w
    end.

Definition encode_completion (codec : PayloadCodec CodecState)
  : Proc WorkflowActivationCompletion :=
  fun comp w =>
    match status comp with
    | status_failed failure other =>
        within (encode_failure codec failure w)
          (fun f => {| status := status_failed f other;
                       completion_other := completion_other comp |})
    | status_successful commands other =>
        within (for_each (encode_command codec) commands w)
          (fun cs => {| status := status_successful cs other;
                        completion_other := completion_other comp |})
    | status_unset => skip comp w
    end.

(** *** The calls the transformation tables ask for

    Written after the per-variant tables of the activation decoder and of
    the completion encoder, cell by cell and in the tables' order: a
    payload sequence is one call unless it is empty, an optional payload
    or failure is one call when present, a memo is one call per value. *)

Definition sequence_calls (mk : list ApiPayload -> Call) (payloads : list BridgePayload)
  : list Call :=
  match payloads with
  | [] => []
  | _ :: _ => [mk (from_bridge_payloads payloads)]
  end.

Definition optional_calls {A} (mk : A -> Call) (o : option A) : list Call :=
  match o with
  | Some a => [mk a]
  | None => []
  end.

Definition single (mk : list ApiPayload -> Call) (payload : BridgePayload) : Call :=
  mk [from_bridge_payload payload].

Definition outcome_calls (o : Outcome) : list Call :=
  match o with
  | cancelled failure _ => [FailureDecode failure]
  | completed result _ => optional_calls (single PayloadDecode) result
  | failed failure _ => [FailureDecode failure]
  | outcome_other _ => []
  end.

Definition job_calls (job : Job) : list Call :=
  match job with
  | cancel_workflow details _ => sequence_calls PayloadDecode details
  | query_workflow arguments _ => sequence_calls PayloadDecode arguments
  | resolve_activity result _ => outcome_calls result
  | resolve_child_workflow_execution result _ => outcome_calls result
  | resolve_child_workflow_execution_start (start_cancelled failure _) _ =>
      [FailureDecode failure]
  | resolve_child_workflow_execution_start (start_other _) _ => []
  | resolve_request_cancel_external_workflow failure _ => optional_calls FailureDecode failure
  | resolve_signal_external_workflow failure _ => optional_calls FailureDecode failure
  | signal_workflow input _ => sequence_calls PayloadDecode input
  | start_workflow arguments continued_failure memo _ =>
      sequence_calls PayloadDecode arguments
      ++ optional_calls FailureDecode continued_failure
      ++ ((fun kv => PayloadDecode [kv.2]) <$> memo)
  | job_other _ => []
  end.

Definition activation_calls (act : WorkflowActivation) : list Call :=
  concat (job_calls <$> jobs act).

Definition command_calls (command : Command) : list Call :=
  match command with
  | complete_workflow_execution result _ => optional_calls (single PayloadEncode) result
  | continue_as_new_workflow_execution arguments memo _ =>
      sequence_calls PayloadEncode arguments
      ++ ((fun kv => single PayloadEncode kv.2) <$> memo)
  | fail_workflow_execution failure _ => [FailureEncode failure]
  | respond_to_query (query_failed failure) _ => [FailureEncode failure]
  | respond_to_query (query_succeeded response _) _ =>
      optional_calls (single PayloadEncode) response
  | respond_to_query (query_other _) _ => []
  | schedule_activity arguments _ => sequence_calls PayloadEncode arguments
  | schedule_local_activity arguments _ => sequence_calls PayloadEncode arguments
  | signal_external_workflow_execution args _ => sequence_calls PayloadEncode args
  | start_child_workflow_execution input memo _ =>
      sequence_calls PayloadEncode input
      ++ ((fun kv => single PayloadEncode kv.2) <$> memo)
  | command_other _ => []
  end.

Definition completion_calls (comp : WorkflowActivationCompletion) : list Call :=
  match status comp with
  | status_failed failure _ => [FailureEncode failure]
  | status_successful commands _ => concat (command_calls <$> commands)
  | status_unset => []
  end.

(** A run made the calls [expected], in this order and one after the
    other, as far as it got: all of them when it returned, a leading part
    of them when it raised. *)
Definition calls_in_order {T} (w : World) (expected : list Call)
    (run : T * World * option exn) : Prop :=
  exists made rest,
    expected = made ++ rest /\
    calls run.1.2 = calls w ++ made /\
    (run.2 = None -> rest = []).

(** The Payload Codec calls and the Failure Codec calls of a log. *)
Definition is_payload_codec_call (c : Call) : bool :=
  match c with
  | PayloadDecode _ | PayloadEncode _ => true
  | FailureDecode _ | FailureEncode _ => false
  end.

Definition payload_codec_calls (log : list Call) : list Call :=
  List.filter is_payload_codec_call log.

Definition failure_codec_calls (log : list Call) : list Call :=
  List.filter (fun c => negb (is_payload_codec_call c)) log.

(** *** Shapes

    Two messages have the same shape when they differ at most in what
    their payloads and failures hold: the same members of every [oneof],
    the same fields present, sequences of the same lengths, memos with the
    same keys in the same order, and the same contents everywhere else. *)










(** The contract of the codec interface: as many payloads out as in. *)
Definition keeps_count (codec : PayloadCodec CodecState) : Prop :=
  forall payloads s s' result,
    (decode codec payloads s = (s', inr result) -> length result = length payloads) /\
    (encode codec payloads s = (s', inr result) -> length result = length payloads).
End Engine.

(** ** Sample collaborators and messages *)

(** Failures and untouched fields are strings, the codec's state counts the
    payloads it has been given, and the failure codec leaves a failure as it
    is. *)
Definition sample_collab : Collaborators := {|
  Failure := string;
  Other := string;
  CodecState := nat;
  exceptions_decode_failure := fun _ failure s => (failure, s, None);
  exceptions_encode_failure := fun _ failure s => (failure, s, None)
|}.

(** A codec that hands every payload back as it is. *)
Definition counting_codec : PayloadCodec nat := {|
  decode := fun payloads s => (s + length payloads, inr payloads);
  encode := fun payloads s => (s + length payloads, inr payloads)
|}.

(** A codec that returns no payload at all, and one that returns every
    payload twice. *)
Definition dropping_codec : PayloadCodec nat := {|
  decode := fun payloads s => (s + length payloads, inr []);
  encode := fun payloads s => (s + length payloads, inr [])
|}.

Definition doubling_codec : PayloadCodec nat := {|
  decode := fun payloads s => (s + length payloads, inr (payloads ++ payloads));
  encode := fun payloads s => (s + length payloads, inr (payloads ++ payloads))
|}.

Definition sample_payload (tag : Byte.byte) : BridgePayload :=
  {| bridge_metadata := {[ "encoding"%string := [Byte.x6a] ]}; bridge_data := [tag] |}.

Definition sample_world : @World sample_collab := @mkWorld sample_collab 0 [].

Definition sample_signal : @Job sample_collab :=
  @signal_workflow sample_collab [sample_payload Byte.x01; sample_payload Byte.x02; sample_payload Byte.x03]
    "signal_name"%string.

(** Scenario A's activation, and the same with one memo entry on the
    start-workflow job. *)
Definition scenario_A : @WorkflowActivation sample_collab :=
  @mkActivation sample_collab
    [sample_signal; @start_workflow sample_collab [] (Some "continued"%string) [] "wf"%string]
    "run-1"%string.

Definition scenario_A_with_memo : @WorkflowActivation sample_collab :=
  @mkActivation sample_collab
    [sample_signal;
     @start_workflow sample_collab [] (Some "continued"%string)
       [("key"%string, from_bridge_payload (sample_payload Byte.x04))] "wf"%string]
    "run-1"%string.

Definition sample_completion : @WorkflowActivationCompletion sample_collab :=
  @mkCompletion sample_collab
    (@status_successful sample_collab
       [@schedule_activity sample_collab [sample_payload Byte.x05] "activity"%string;
        @complete_workflow_execution sample_collab (Some (sample_payload Byte.x06)) ""%string]
       ""%string)
    "run-1"%string.

Definition sample_policy (maximum : option timedelta) : RetryPolicy Z :=
  {| initial_interval := 1000000%Z;
     backoff_coefficient := 2%Z;
     maximum_interval := maximum;
     maximum_attempts := 3%Z;
     non_retryable_error_types := None |}.

(** ** The other methods of the worker handle *)

(** The polling, completing and heartbeat methods of the native reference;
    a poll ends with the bytes of a message or with an exception
    ([PollShutdownError] among them). *)
Class NativeWorkerIO (core : NativeWorker) := {
  ref_poll_workflow_activation : WorkerRef -> WorkerRef * (exn + bytes);
  ref_poll_activity_task : WorkerRef -> WorkerRef * (exn + bytes);
  ref_complete_workflow_activation : bytes -> WorkerRef -> WorkerRef * option exn;
  ref_complete_activity_task : bytes -> WorkerRef -> WorkerRef * option exn;
  ref_record_activity_heartbeat : bytes -> WorkerRef -> WorkerRef * option exn
}.

(** The messages that cross the bridge with the generated [FromString] and
    [SerializeToString] of their classes. *)
Class BridgeMessages := {
  PolledActivation : Type;
  ActivityTask : Type;
  ActivationCompletion : Type;
  ActivityTaskCompletion : Type;
  ActivityHeartbeat : Type;
  WorkflowActivation_FromString : bytes -> exn + PolledActivation;
  ActivityTask_FromString : bytes -> exn + ActivityTask;
  ActivationCompletion_SerializeToString : ActivationCompletion -> bytes;
  ActivityTaskCompletion_SerializeToString : ActivityTaskCompletion -> bytes;
  ActivityHeartbeat_SerializeToString : ActivityHeartbeat -> bytes
}.

Section WorkerIOModel.
Context {core : NativeWorker} {io : NativeWorkerIO core} {msgs : BridgeMessages}.

(** [parse(await self._ref.m())]: the attribute is looked up first, then
    the core is awaited, then its bytes are parsed. *)
Definition on_ref_poll {A} (m : WorkerRef -> WorkerRef * (exn + bytes))
    (parse : bytes -> exn + A) (self : Worker core) : Worker core * (exn + A) :=
  match _ref self with
  | None => (self, inl AttributeError)
  | Some ref =>
      let '(ref, r) := m ref in
      ({| _ref := Some ref |},
       match r with
       | inl e => inl e
       | inr data => parse data
       end)
  end.

Definition poll_workflow_activation : Worker core -> Worker core * (exn + PolledActivation) :=
  on_ref_poll ref_poll_workflow_activation WorkflowActivation_FromString.

Definition poll_activity_task : Worker core -> Worker core * (exn + ActivityTask) :=
  on_ref_poll ref_poll_activity_task ActivityTask_FromString.

Definition complete_workflow_activation (comp : ActivationCompletion)
  : Worker core -> Worker core * option exn :=
  on_ref (ref_complete_workflow_activation (ActivationCompletion_SerializeToString comp)).

Definition complete_activity_task (comp : ActivityTaskCompletion)
  : Worker core -> Worker core * option exn :=
  on_ref (ref_complete_activity_task (ActivityTaskCompletion_SerializeToString comp)).

Definition record_activity_heartbeat (comp : ActivityHeartbeat)
  : Worker core -> Worker core * option exn :=
  on_ref (ref_record_activity_heartbeat (ActivityHeartbeat_SerializeToString comp)).

(** Whether the handle still has its reference. *)
Definition has_ref (self : Worker core) : bool :=
  match _ref self with Some _ => true | None => false end.
End WorkerIOModel.

(** ** More about the calls of a traversal *)

Section EngineCalls.
Context {collab : Collaborators}.

(** A call of the Payload Codec that carries at least one payload; the
    calls of the Failure Codec carry a failure. *)
Definition carries_payloads (c : Call) : bool :=
  match c with
  | PayloadDecode (_ :: _) | PayloadEncode (_ :: _) => true
  | PayloadDecode [] | PayloadEncode [] => false
  | FailureDecode _ | FailureEncode _ => true
  end.

Definition is_decode_call (c : Call) : bool :=
  match c with
  | PayloadDecode _ | FailureDecode _ => true
  | PayloadEncode _ | FailureEncode _ => false
  end.

(** The state in which a collaborator leaves the codec's surroundings when
    it is called in the state [s]. *)
Definition state_after (codec : PayloadCodec CodecState) (c : Call) (s : CodecState)
  : CodecState :=
  match c with
  | PayloadDecode payloads => (decode codec payloads s).1
  | PayloadEncode payloads => (encode codec payloads s).1
  | FailureDecode failure => (exceptions_decode_failure codec failure s).1.2
  | FailureEncode failure => (exceptions_encode_failure codec failure s).1.2
  end.

(** The calls of a list made one after the other, each from the state the
    one before it left. *)
Definition state_after_all (codec : PayloadCodec CodecState) (cs : list Call)
    (s : CodecState) : CodecState :=
  foldl (fun s c => state_after codec c s) s cs.

(** As [calls_in_order], with the state: the run leaves the state in which
    the calls it made, made in a row, end. *)
Definition calls_threaded {T} (codec : PayloadCodec CodecState) (w : World)
    (expected : list Call) (run : T * World * option exn) : Prop :=
  exists made rest,
    expected = made ++ rest /\
    calls run.1.2 = calls w ++ made /\
    codec_state run.1.2 = state_after_all codec made (codec_state w) /\
    (run.2 = None -> rest = []).

(** Collaborators that never raise. *)
Definition never_raises (codec : PayloadCodec CodecState) : Prop :=
  (forall payloads s, exists s' result, decode codec payloads s = (s', inr result))
  /\ (forall payloads s, exists s' result, encode codec payloads s = (s', inr result))
  /\ (forall failure s, (exceptions_decode_failure codec failure s).2 = None)
  /\ (forall failure s, (exceptions_encode_failure codec failure s).2 = None).

(** A codec whose [encode] returns the payloads it is given, next to a
    failure codec whose [encode_failure] leaves a failure as it is. *)
Definition encode_hands_back (codec : PayloadCodec CodecState) : Prop :=
  (forall payloads s, exists s', encode codec payloads s = (s', inr payloads))
  /\ (forall failure s, exists s',
        exceptions_encode_failure codec failure s = (failure, s', None)).

(** A codec whose [decode] takes back what its [encode] did, in whatever
    states the two are called. *)
Definition decode_undoes_encode (codec : PayloadCodec CodecState) : Prop :=
  forall payloads s,
    exists s1 encoded,
      encode codec payloads s = (s1, inr encoded)
      /\ forall s2, exists s3, decode codec encoded s2 = (s3, inr payloads).

(** The call [c], made in the state [s], is where the exception [e] comes
    from: the collaborator raised it, or the codec returned no payload at all
    and taking the first one raised [IndexError]. *)
Definition raised_by (codec : PayloadCodec CodecState) (c : Call) (s : CodecState)
    (e : exn) : Prop :=
  match c with
  | PayloadDecode payloads =>
      (decode codec payloads s).2 = inl e
      \/ (e = IndexError /\ (decode codec payloads s).2 = inr [])
  | PayloadEncode payloads =>
      (encode codec payloads s).2 = inl e
      \/ (e = IndexError /\ (encode codec payloads s).2 = inr [])
  | FailureDecode failure => (exceptions_decode_failure codec failure s).2 = Some e
  | FailureEncode failure => (exceptions_encode_failure codec failure s).2 = Some e
  end.


(** The collaborator called by [c] in the state [s] returned. *)
Definition returned (codec : PayloadCodec CodecState) (c : Call) (s : CodecState) : Prop :=
  match c with
  | PayloadDecode payloads => exists result, (decode codec payloads s).2 = inr result
  | PayloadEncode payloads => exists result, (encode codec payloads s).2 = inr result
  | FailureDecode failure => (exceptions_decode_failure codec failure s).2 = None
  | FailureEncode failure => (exceptions_encode_failure codec failure s).2 = None
  end.

(** Each call of a list returned, made from the state the calls before it
    had led to. *)
Fixpoint all_returned (codec : PayloadCodec CodecState) (cs : list Call) (s : CodecState)
  : Prop :=
  match cs with
  | [] => True
  | c :: cs => returned codec c s /\ all_returned codec cs (state_after codec c s)
  end.

(** A run follows the table [expected]: it made the calls of the table from
    the first on, in the table's order, each from the state the one before it
    left.  A run that returned made them all, and all of them returned.  A
    run that raised made them up to one, the calls before that one returned,
    and that one is where its exception comes from. *)
Definition follows_table {T} (codec : PayloadCodec CodecState) (w : World)
    (expected : list Call) (run : T * World * option exn) : Prop :=
  exists made rest,
    expected = made ++ rest
    /\ calls run.1.2 = calls w ++ made
    /\ codec_state run.1.2 = state_after_all codec made (codec_state w)
    /\ match run.2 with
       | None => rest = [] /\ all_returned codec made (codec_state w)
       | Some e =>
           exists before c,
             made = before ++ [c]
             /\ all_returned codec before (codec_state w)
             /\ raised_by codec c (state_after_all codec before (codec_state w)) e
       end.
End EngineCalls.

(** ** More samples *)

Definition reverse_data (p : ApiPayload) : ApiPayload :=
  {| api_metadata := api_metadata p; api_data := reverse (api_data p) |}.

(** A codec that stores the data of every payload back to front. *)
Definition reversing_codec : PayloadCodec nat := {|
  decode := fun payloads s => (s + length payloads, inr (reverse_data <$> payloads));
  encode := fun payloads s => (s + length payloads, inr (reverse_data <$> payloads))
|}.

(** A codec that raises whatever it is given. *)
Definition failing_codec : PayloadCodec nat := {|
  decode := fun payloads s => (s + 1, inl (Raised "codec is down"));
  encode := fun payloads s => (s + 1, inl (Raised "codec is down"))
|}.


(** * Properties *)

(** ** Payload conversions *)

Lemma metadata_clear_update (m n : gmap string bytes) :
  metadata_update (metadata_clear m) n = n.
Proof. unfold metadata_update, metadata_clear. apply (right_id_L ∅ (∪)). Qed.

Lemma from_to_bridge_payload (p : ApiPayload) :
  from_bridge_payload (to_bridge_payload p) = p.
Proof. by destruct p. Qed.

Lemma to_from_bridge_payload (q : BridgePayload) :
  to_bridge_payload (from_bridge_payload q) = q.
Proof. by destruct q. Qed.

Lemma from_to_bridge_payloads (ps : list ApiPayload) :
  from_bridge_payloads (to_bridge_payloads ps) = ps.
Proof.
  unfold from_bridge_payloads, to_bridge_payloads.
  induction ps as [|p ps IH]; [done|].
  cbn. by rewrite from_to_bridge_payload, IH.
Qed.

Lemma to_from_bridge_payloads (qs : list BridgePayload) :
  to_bridge_payloads (from_bridge_payloads qs) = qs.
Proof.
  unfold from_bridge_payloads, to_bridge_payloads.
  induction qs as [|q qs IH]; [done|].
  cbn. by rewrite to_from_bridge_payload, IH.
Qed.

(** C10: the conversions between bridge payloads and API payloads are
    inverse to each other, one payload at a time (metadata and data are kept)
    and on lists, where they keep the length and act position by position. *)
Theorem payload_conversions_round_trip :
  (forall p : ApiPayload,
      from_bridge_payload (to_bridge_payload p) = p
      /\ bridge_metadata (to_bridge_payload p) = api_metadata p
      /\ bridge_data (to_bridge_payload p) = api_data p)
  /\ (forall q : BridgePayload,
      to_bridge_payload (from_bridge_payload q) = q
      /\ api_metadata (from_bridge_payload q) = bridge_metadata q
      /\ api_data (from_bridge_payload q) = bridge_data q)
  /\ (forall ps : list ApiPayload,
      from_bridge_payloads (to_bridge_payloads ps) = ps
      /\ length (to_bridge_payloads ps) = length ps
      /\ forall i, to_bridge_payloads ps !! i = to_bridge_payload <$> ps !! i)
  /\ (forall qs : list BridgePayload,
      to_bridge_payloads (from_bridge_payloads qs) = qs
      /\ length (from_bridge_payloads qs) = length qs
      /\ forall i, from_bridge_payloads qs !! i = from_bridge_payload <$> qs !! i).
Proof.
  repeat split.
  - apply from_to_bridge_payload.
  - apply to_from_bridge_payload.
  - apply from_to_bridge_payloads.
  - apply length_fmap.
  - intros i. apply list_lookup_fmap.
  - apply to_from_bridge_payloads.
  - apply length_fmap.
  - intros i. apply list_lookup_fmap.
Qed.

(** ** Retry policy *)

Lemma SecondsNanos_round_trip (td : timedelta) :
  @ToTimedelta SecondsNanos_ops (@FromTimedelta SecondsNanos_ops td) = td.
Proof.
  cbn. unfold NormalizeDuration.
  pose proof (Z.div_mod td 1000000 ltac:(lia)) as Hdm.
  pose proof (Z.mod_pos_bound td 1000000 ltac:(lia)) as Hb.
  destruct ((td / 1000000 <? 0)%Z && (0 <? td mod 1000000 * 1000)%Z) eqn:E; cbn.
  - replace (td mod 1000000 * 1000 - 1000000000)%Z
      with ((td mod 1000000 - 1000000) * 1000)%Z by lia.
    rewrite Z.quot_mul by lia. lia.
  - rewrite Z.quot_mul by lia. lia.
Qed.



Lemma int32_assign_in (z : Z) :
  in_int32 z = true -> exists a, int32_assign z = inr a /\ int32_value a = z.
Proof.
  intros Hz. unfold int32_assign. destruct (decide _) as [H|H].
  - by eexists.
  - destruct H. by apply Is_true_true.
Qed.

Lemma int32_assign_out (z : Z) : in_int32 z = false -> int32_assign z = inl ValueError.
Proof.
  intros Hz. unfold int32_assign. destruct (decide _) as [H|H]; [|done].
  pose proof (proj1 (Is_true_true _) H). congruence.
Qed.

Section RetryPolicyProperties.
Context {dur : DurationOps} {float : Type}.
Hypothesis timedelta_round_trip : forall td, ToTimedelta (FromTimedelta td) = td.

(** C8, as the code has it: a policy whose maximum interval is absent or
    not zero and whose maximum attempts fit the wire's [int32] field is
    written into a fresh wire message without an exception, and read back it
    is the policy it was, its absent list of error types read as the empty
    list.  An absent maximum interval is absent on the wire and absent again
    on the way back; an absent or empty list of error types is the empty list
    on the wire.  With maximum attempts outside the field's range the
    conversion raises [ValueError] instead. *)
Theorem retry_policy_round_trip (p : RetryPolicy float) (c : float) :
  maximum_interval p <> Some 0%Z ->
  let written := retry_policy_to_proto p (fresh_proto c) in
  if in_int32 (maximum_attempts p)
  then
    written.2 = None
    /\ retry_policy_from_proto written.1 = with_empty_error_types p
    /\ (proto_maximum_interval written.1 = None <-> maximum_interval p = None)
    /\ maximum_interval (retry_policy_from_proto (fresh_proto c)) = None
    /\ proto_non_retryable_error_types written.1
       = default [] (non_retryable_error_types p)
  else written.2 = Some ValueError.
Proof.
  intros Hmax. cbv zeta. unfold retry_policy_to_proto.
  destruct (in_int32 (maximum_attempts p)) eqn:Hrange.
  2: { by rewrite (int32_assign_out _ Hrange). }
  destruct (int32_assign_in _ Hrange) as (attempts & -> & Hattempts).
  destruct p as [ii bc mi ma nr].
  unfold retry_policy_from_proto, with_empty_error_types.
  cbn in *.
  assert (Hmi : match (if option_timedelta_truthy mi
                       then Some (FromTimedelta (default 0%Z mi)) else None) with
                | Some d => Some (ToTimedelta d)
                | None => None
                end = mi).
  { destruct mi as [td|]; cbn; [|done].
    unfold timedelta_truthy.
    destruct (Z.eqb_spec td 0) as [Heq|Hne]; [subst td; by destruct Hmax|].
    cbn. by rewrite timedelta_round_trip. }
  rewrite Hmi, timedelta_round_trip, Hattempts.
  repeat split.
  - by destruct nr as [[|x l]|].
  - destruct mi as [td|]; cbn; [|done].
    unfold timedelta_truthy.
    destruct (Z.eqb_spec td 0) as [Heq|Hne]; [subst td; by destruct Hmax|].
    cbn. congruence.
  - intros ->. done.
  - by destruct nr as [[|x l]|].
Qed.
End RetryPolicyProperties.

Lemma retry_policy_round_trip_witness :
  maximum_interval (sample_policy (Some 5000000%Z)) <> Some 0%Z
  /\ (@retry_policy_to_proto SecondsNanos_ops Z
        (sample_policy (Some 5000000%Z)) (fresh_proto 0%Z)).2 = None
  /\ @retry_policy_from_proto SecondsNanos_ops Z
       (retry_policy_to_proto (sample_policy (Some 5000000%Z)) (fresh_proto 0%Z)).1
     = with_empty_error_types (sample_policy (Some 5000000%Z)).
Proof.
  assert (H : maximum_interval (sample_policy (Some 5000000%Z)) <> Some 0%Z)
    by (cbn; congruence).
  split; [exact H|].
  pose proof (@retry_policy_round_trip SecondsNanos_ops Z SecondsNanos_round_trip
                (sample_policy (Some 5000000%Z)) 0%Z H) as Hround.
  cbv zeta in Hround.
  change (in_int32 (maximum_attempts (sample_policy (Some 5000000%Z)))) with true
    in Hround.
  exact (conj (proj1 Hround) (proj1 (proj2 Hround))).
Defined.

(** C8 as stated fails: a maximum interval of zero is falsy, so it is left
    off the wire message and comes back absent; and a policy whose maximum
    attempts do not fit the [int32] field is not converted at all. *)
Lemma retry_policy_zero_maximum_lost :
  let written :=
    @retry_policy_to_proto SecondsNanos_ops Z (sample_policy (Some 0%Z)) (fresh_proto 0%Z) in
  let too_many : RetryPolicy Z :=
    {| initial_interval := 1000000%Z;
       backoff_coefficient := 2%Z;
       maximum_interval := None;
       maximum_attempts := 2147483648%Z;
       non_retryable_error_types := None |} in
  (maximum_interval (sample_policy (Some 0%Z)) = Some 0%Z
   /\ written.2 = None
   /\ proto_maximum_interval written.1 = None
   /\ maximum_interval (retry_policy_from_proto written.1) = None)
  /\ (@retry_policy_to_proto SecondsNanos_ops Z too_many (fresh_proto 0%Z)).2
     = Some ValueError.
Proof. cbv zeta. repeat split. Qed.

(** ** Worker handle *)

Section WorkerProperties.
Context {core : NativeWorker}.

Lemma on_ref_None (m : WorkerRef -> WorkerRef * option exn) (self : Worker core) :
  _ref self = None -> on_ref m self = (self, Some AttributeError).
Proof. intros H. unfold on_ref. by rewrite H. Qed.

Lemma finalize_shutdown_ref (self : Worker core) :
  _ref (finalize_shutdown self).1 = None.
Proof.
  unfold finalize_shutdown. destruct (_ref self) as [ref|]; [|done].
  by destruct (ref_finalize_shutdown ref).
Qed.

(** C3, as the code has it: [finalize_shutdown] gives up the reference
    before it calls the core, so it ends as the core's call ends (with the
    core's exception when the drain is not over) and the handle is invalid
    either way: from then on [shutdown], [finalize_shutdown] and a retry of
    the two raise [AttributeError] and leave the handle as it is. *)
Theorem finalize_shutdown_invalidates (self : Worker core) :
  let after := (finalize_shutdown self).1 in
  (finalize_shutdown self).2
    = match _ref self with
      | Some ref => (ref_finalize_shutdown ref).2
      | None => Some AttributeError
      end
  /\ _ref after = None
  /\ shutdown after = (after, Some AttributeError)
  /\ finalize_shutdown after = (after, Some AttributeError)
  /\ retry_shutdown after = (after, Some AttributeError).
Proof.
  cbv zeta. pose proof (finalize_shutdown_ref self) as Hnone.
  split; [|split; [exact Hnone|]].
  - unfold finalize_shutdown. destruct (_ref self) as [ref|]; [|done].
    by destruct (ref_finalize_shutdown ref).
  - assert (Hs : shutdown (finalize_shutdown self).1
                 = ((finalize_shutdown self).1, Some AttributeError))
      by (by apply on_ref_None).
    assert (Hf : finalize_shutdown (finalize_shutdown self).1
                 = ((finalize_shutdown self).1, Some AttributeError)).
    { destruct (finalize_shutdown self).1 as [r]. cbn in Hnone. subst r. done. }
    split; [exact Hs|split; [exact Hf|]].
    unfold retry_shutdown. by rewrite Hs.
Qed.
End WorkerProperties.

(** C3 as stated fails: on a worker that is still active, the failed
    [finalize_shutdown] leaves a handle on which a retry raises, although
    the same retry succeeds on a handle that still has its reference. *)
Lemma finalize_before_drain_not_retryable :
  let self := @mkWorker spec_core (Some Active) in
  (finalize_shutdown self).2 = Some LifecycleViolation
  /\ (retry_shutdown (finalize_shutdown self).1).2 = Some AttributeError
  /\ (shutdown (finalize_shutdown self).1).2 = Some AttributeError
  /\ (retry_shutdown self).2 = None.
Proof. repeat split. Qed.

(** ** The transformation engine *)

Section EngineProperties.
Context {collab : Collaborators}.
Implicit Types (codec : PayloadCodec CodecState) (w : World).

(** *** The log of calls *)

Lemma calls_codec_decode codec ps w :
  calls (codec_decode codec ps w).1 = calls w ++ [PayloadDecode ps].
Proof. unfold codec_decode. by destruct (decode codec ps (codec_state w)). Qed.

Lemma calls_codec_encode codec ps w :
  calls (codec_encode codec ps w).1 = calls w ++ [PayloadEncode ps].
Proof. unfold codec_encode. by destruct (encode codec ps (codec_state w)). Qed.

Lemma one_call {T} w (c : Call) (run : T * World * option exn) :
  calls run.1.2 = calls w ++ [c] -> calls_in_order w [c] run.
Proof. intros H. exists [c], []. by rewrite H. Qed.

Lemma calls_in_order_skip {T} w (t : T) : calls_in_order w [] (skip t w).
Proof. exists [], []. cbn. by rewrite app_nil_r. Qed.

Lemma calls_in_order_and_then {A T} w e1 e2 (m : A * World * option exn)
    (rebuild : A -> T) (k : A -> World -> T * World * option exn) :
  calls_in_order w e1 m ->
  (forall a w', calls_in_order w' e2 (k a w')) ->
  calls_in_order w (e1 ++ e2) (and_then m rebuild k).
Proof.
  intros (made & rest & -> & Hc & Hr) Hk.
  destruct m as [[a w1] [e|]]; cbn in *.
  - exists made, (rest ++ e2). by rewrite <- (assoc_L (++)).
  - rewrite (Hr eq_refl), app_nil_r in *.
    destruct (Hk a w1) as (made2 & rest2 & -> & Hc2 & Hr2).
    exists (made ++ made2), rest2.
    rewrite Hc2, Hc. by rewrite !(assoc_L (++)).
Qed.

Lemma calls_in_order_within {A T} w e (m : A * World * option exn) (rebuild : A -> T) :
  calls_in_order w e m -> calls_in_order w e (within m rebuild).
Proof.
  intros H. unfold within. rewrite <- (app_nil_r e).
  apply calls_in_order_and_then; [done|].
  intros a w'. apply (calls_in_order_skip w' (rebuild a)).
Qed.

Lemma calls_in_order_if_present {T} (mk : T -> Call) (p : Proc T) :
  (forall t w, calls_in_order w [mk t] (p t w)) ->
  forall o w, calls_in_order w (optional_calls mk o) (if_present p o w).
Proof.
  intros Hp [t|] w; cbn.
  - by apply calls_in_order_within.
  - apply (calls_in_order_skip w None).
Qed.

Lemma calls_in_order_for_each {T} (f : T -> list Call) (p : Proc T) :
  (forall x w, calls_in_order w (f x) (p x w)) ->
  forall xs w, calls_in_order w (concat (f <$> xs)) (for_each p xs w).
Proof.
  intros Hp xs. induction xs as [|x xs IH]; intros w; cbn.
  - apply (calls_in_order_skip w []).
  - apply calls_in_order_and_then; [apply Hp|].
    intros a w'. apply calls_in_order_within, IH.
Qed.

Lemma concat_singletons {A B} (g : A -> B) (l : list A) :
  concat ((fun x => [g x]) <$> l) = g <$> l.
Proof. induction l as [|x l IH]; [done|]. cbn. by rewrite IH. Qed.

Lemma calls_in_order_for_each_value {T} (mk : T -> Call) (p : Proc T) :
  (forall t w, calls_in_order w [mk t] (p t w)) ->
  forall memo w,
    calls_in_order w ((fun kv => mk kv.2) <$> memo) (for_each_value p memo w).
Proof.
  intros Hp memo w. unfold for_each_value.
  rewrite <- (concat_singletons (fun kv : string * T => mk kv.2)).
  apply (calls_in_order_for_each (fun kv : string * T => [mk kv.2])).
  intros kv w'. by apply calls_in_order_within.
Qed.

(** *** The payload helpers, case by case *)

Lemma apply_to_bridge_payloads_nil cb w :
  _apply_to_bridge_payloads cb [] w = ([], w, None).
Proof. reflexivity. Qed.

Lemma apply_to_bridge_payloads_cons cb payload payloads w :
  _apply_to_bridge_payloads cb (payload :: payloads) w
  = match cb (from_bridge_payloads (payload :: payloads)) w with
    | (w', inl e) => (payload :: payloads, w', Some e)
    | (w', inr result) => (to_bridge_payloads result, w', None)
    end.
Proof. reflexivity. Qed.

Lemma apply_to_bridge_payload_eq cb payload w :
  _apply_to_bridge_payload cb payload w
  = match cb [from_bridge_payload payload] w with
    | (w', inl e) => (payload, w', Some e)
    | (w', inr []) => (payload, w', Some IndexError)
    | (w', inr (new_payload :: _)) => (to_bridge_payload new_payload, w', None)
    end.
Proof.
  unfold _apply_to_bridge_payload.
  destruct (cb [from_bridge_payload payload] w) as [w' [e|[|new_payload rest]]]; try done.
  cbv zeta. by rewrite metadata_clear_update.
Qed.

Lemma decode_memo_value_eq codec val w :
  decode_memo_value codec val w
  = match codec_decode codec [val] w with
    | (w', inl e) => (val, w', Some e)
    | (w', inr []) => (val, w', Some IndexError)
    | (w', inr (new_payload :: _)) => (new_payload, w', None)
    end.
Proof.
  unfold decode_memo_value.
  destruct (codec_decode codec [val] w) as [w' [e|[|new_payload rest]]]; try done.
  cbv zeta. rewrite metadata_clear_update. by destruct new_payload.
Qed.

Lemma calls_in_order_payloads cb (mk : list ApiPayload -> Call) :
  (forall ps w, calls (cb ps w).1 = calls w ++ [mk ps]) ->
  forall payloads w,
    calls_in_order w (sequence_calls mk payloads) (_apply_to_bridge_payloads cb payloads w).
Proof.
  intros Hcb [|payload payloads] w.
  - apply (calls_in_order_skip w []).
  - rewrite apply_to_bridge_payloads_cons. cbn [sequence_calls].
    apply one_call. rewrite <- Hcb.
    by destruct (cb _ w) as [w' [e|result]].
Qed.

Lemma calls_in_order_payload cb (mk : list ApiPayload -> Call) :
  (forall ps w, calls (cb ps w).1 = calls w ++ [mk ps]) ->
  forall payload w,
    calls_in_order w [single mk payload] (_apply_to_bridge_payload cb payload w).
Proof.
  intros Hcb payload w. rewrite apply_to_bridge_payload_eq.
  apply one_call. unfold single. rewrite <- Hcb.
  by destruct (cb _ w) as [w' [e|[|new_payload rest]]].
Qed.

Lemma calls_in_order_memo_value codec val w :
  calls_in_order w [PayloadDecode [val]] (decode_memo_value codec val w).
Proof.
  rewrite decode_memo_value_eq. apply one_call.
  rewrite <- (calls_codec_decode codec).
  by destruct (codec_decode codec [val] w) as [w' [e|[|new_payload rest]]].
Qed.

Lemma calls_in_order_decode_failure codec failure w :
  calls_in_order w [FailureDecode failure] (decode_failure codec failure w).
Proof.
  apply one_call. unfold decode_failure.
  by destruct (exceptions_decode_failure codec failure (codec_state w)) as [[f s] r].
Qed.

Lemma calls_in_order_encode_failure codec failure w :
  calls_in_order w [FailureEncode failure] (encode_failure codec failure w).
Proof.
  apply one_call. unfold encode_failure.
  by destruct (exceptions_encode_failure codec failure (codec_state w)) as [[f s] r].
Qed.

(** *** The order of the calls *)

Lemma decode_payloads_calls codec payloads w :
  calls_in_order w (sequence_calls PayloadDecode payloads)
    (_decode_bridge_payloads codec payloads w).
Proof. apply calls_in_order_payloads, calls_codec_decode. Qed.

Lemma encode_payloads_calls codec payloads w :
  calls_in_order w (sequence_calls PayloadEncode payloads)
    (_encode_bridge_payloads codec payloads w).
Proof. apply calls_in_order_payloads, calls_codec_encode. Qed.

Lemma decode_payload_calls codec payload w :
  calls_in_order w [single PayloadDecode payload] (_decode_bridge_payload codec payload w).
Proof. apply calls_in_order_payload, calls_codec_decode. Qed.

Lemma encode_payload_calls codec payload w :
  calls_in_order w [single PayloadEncode payload] (_encode_bridge_payload codec payload w).
Proof. apply calls_in_order_payload, calls_codec_encode. Qed.

(** One step of the table at a time: what the run does next against
    what the table lists next. *)
Ltac order_step :=
  first
    [ apply calls_in_order_skip
    | apply calls_in_order_within
    | apply calls_in_order_and_then; [|intros ? ?]
    | apply decode_payloads_calls
    | apply encode_payloads_calls
    | apply decode_payload_calls
    | apply encode_payload_calls
    | apply calls_in_order_memo_value
    | apply calls_in_order_decode_failure
    | apply calls_in_order_encode_failure
    | apply (calls_in_order_if_present FailureDecode); intros ? ?
    | apply (calls_in_order_if_present (single PayloadDecode)); intros ? ?
    | apply (calls_in_order_if_present (single PayloadEncode)); intros ? ?
    | apply (calls_in_order_for_each_value (fun v => PayloadDecode [v])); intros ? ?
    | apply (calls_in_order_for_each_value (single PayloadEncode)); intros ? ? ].

Lemma decode_activity_result_calls codec result w :
  calls_in_order w (outcome_calls result) (decode_activity_result codec result w).
Proof.
  destruct result as [failure other|res other|failure other|other];
    cbn [decode_activity_result outcome_calls]; repeat order_step.
Qed.

Lemma decode_child_result_calls codec result w :
  calls_in_order w (outcome_calls result) (decode_child_result codec result w).
Proof.
  destruct result as [failure other|[res|] other|failure other|other];
    cbn [decode_child_result outcome_calls optional_calls]; repeat order_step.
Qed.

Lemma decode_job_calls codec job w :
  calls_in_order w (job_calls job) (decode_job codec job w).
Proof.
  destruct job as [details other|arguments other|result other|result other
                  |[failure other'|other'] other|failure other|failure other
                  |input other|arguments continued_failure memo other|other];
    cbn [decode_job job_calls];
    repeat first [ apply decode_activity_result_calls
                 | apply decode_child_result_calls
                 | order_step ].
Qed.

Lemma encode_command_calls codec command w :
  calls_in_order w (command_calls command) (encode_command codec command w).
Proof.
  destruct command as [result other|arguments memo other|failure other
                      |[failure|[response|] other'|other'] other|arguments other
                      |arguments other|args other|input memo other|other];
    cbn [encode_command command_calls optional_calls]; repeat order_step.
Qed.

(** A loop over a list that is two lists one after the other runs over
    the first and then, from where that run left the world, over the
    second; it does not reach the second when the first run raised. *)
Lemma for_each_app {T} (p : Proc T) (xs ys : list T) w :
  for_each p (xs ++ ys) w
  = and_then (for_each p xs w) (fun xs' => xs' ++ ys)
      (fun xs' w' => within (for_each p ys w') (fun ys' => xs' ++ ys')).
Proof.
  revert w. induction xs as [|x xs IH]; intros w; cbn.
  - unfold within, and_then. by destruct (for_each p ys w) as [[ys' w'] [e|]].
  - unfold within, and_then in *.
    destruct (p x w) as [[x' w1] [e|]]; [done|].
    rewrite IH.
    destruct (for_each p xs w1) as [[xs' w2] [e|]]; [done|].
    by destruct (for_each p ys w2) as [[ys' w3] [e|]].
Qed.

Lemma decode_activation_calls codec act w :
  calls_in_order w (activation_calls act) (decode_activation codec act w).
Proof.
  unfold decode_activation, activation_calls.
  apply calls_in_order_within, calls_in_order_for_each.
  intros job w'. apply decode_job_calls.
Qed.

Lemma encode_completion_calls codec comp w :
  calls_in_order w (completion_calls comp) (encode_completion codec comp w).
Proof.
  destruct comp as [st other]. unfold encode_completion, completion_calls. cbn [status].
  destruct st as [failure other'|commands other'|].
  - apply calls_in_order_within, calls_in_order_encode_failure.
  - apply calls_in_order_within, calls_in_order_for_each.
    intros command w'. apply encode_command_calls.
  - apply (calls_in_order_skip w).
Qed.

(** *** C2 and C7: one call for a sequence, none for nothing *)

(** C2: a payload sequence of one element or more is handed to the codec
    in a single call, whole and in its order; when the call returns, its
    result takes the place of the field's contents, position by position,
    and when it raises the field stays as it was.  Decoding and encoding
    alike. *)
Theorem payload_sequence_one_call codec payloads w :
  (1 <= length payloads)%nat ->
  let api := from_bridge_payloads payloads in
  (length api = length payloads
   /\ forall i, api !! i = from_bridge_payload <$> payloads !! i)
  /\ (let run := _decode_bridge_payloads codec payloads w in
      calls run.1.2 = calls w ++ [PayloadDecode api]
      /\ match decode codec api (codec_state w) with
         | (_, inr result) =>
             run.2 = None /\ run.1.1 = to_bridge_payloads result
             /\ forall i, run.1.1 !! i = to_bridge_payload <$> result !! i
         | (_, inl e) => run.2 = Some e /\ run.1.1 = payloads
         end)
  /\ (let run := _encode_bridge_payloads codec payloads w in
      calls run.1.2 = calls w ++ [PayloadEncode api]
      /\ match encode codec api (codec_state w) with
         | (_, inr result) =>
             run.2 = None /\ run.1.1 = to_bridge_payloads result
             /\ forall i, run.1.1 !! i = to_bridge_payload <$> result !! i
         | (_, inl e) => run.2 = Some e /\ run.1.1 = payloads
         end).
Proof.
  intros Hlen. destruct payloads as [|payload payloads]; [cbn in Hlen; lia|].
  cbv zeta. split; [|split].
  - split; [apply length_fmap|]. intros i. apply list_lookup_fmap.
  - unfold _decode_bridge_payloads. rewrite apply_to_bridge_payloads_cons.
    unfold codec_decode.
    destruct (decode codec _ (codec_state w)) as [s [e|result]]; cbn.
    + done.
    + repeat split. intros i. apply list_lookup_fmap.
  - unfold _encode_bridge_payloads. rewrite apply_to_bridge_payloads_cons.
    unfold codec_encode.
    destruct (encode codec _ (codec_state w)) as [s [e|result]]; cbn.
    + done.
    + repeat split. intros i. apply list_lookup_fmap.
Qed.

(** C7: an empty payload sequence is left alone without a call, decoding
    or encoding, and so is every job that holds nothing but one: the world,
    and with it the log of calls, is the one the run started from.  The
    same for a resolve-activity job that completed without a result. *)
Theorem nothing_to_transform_no_call codec w :
  _decode_bridge_payloads codec [] w = ([], w, None)
  /\ _encode_bridge_payloads codec [] w = ([], w, None)
  /\ (forall other,
       decode_job codec (cancel_workflow [] other) w = (cancel_workflow [] other, w, None)
       /\ decode_job codec (query_workflow [] other) w = (query_workflow [] other, w, None)
       /\ decode_job codec (signal_workflow [] other) w = (signal_workflow [] other, w, None))
  /\ (forall other other',
       let job := resolve_activity (completed None other) other' in
       decode_job codec job w = (job, w, None)
       /\ job_calls job = []
       /\ forall other'',
           let act := {| jobs := [job]; activation_other := other'' |} in
           decode_activation codec act w = (act, w, None)).
Proof.
  split; [reflexivity|]. split; [reflexivity|]. split.
  - intros other. by repeat split.
  - intros other other'. cbv zeta. by repeat split.
Qed.

(** *** C9: what the traversals do not name *)

Lemma for_each_length {T} (p : Proc T) (xs : list T) w :
  length (for_each p xs w).1.1 = length xs.
Proof.
  revert w. induction xs as [|x xs IH]; intros w; [done|].
  cbn. unfold within, and_then.
  destruct (p x w) as [[x' w1] [e|]]; [done|].
  specialize (IH w1).
  destruct (for_each p xs w1) as [[xs' w2] [e|]]; cbn in *; by rewrite IH.
Qed.

Lemma for_each_untouched {T} (p : Proc T) (x : T) :
  (forall w, p x w = (x, w, None)) ->
  forall before after w,
    for_each p (before ++ x :: after) w
    = let run := for_each p (before ++ after) w in
      (take (length before) run.1.1 ++ x :: drop (length before) run.1.1,
       run.1.2, run.2).
Proof.
  intros Hx before after w. cbv zeta. rewrite !for_each_app.
  pose proof (for_each_length p before w) as Hlen.
  unfold within, and_then.
  destruct (for_each p before w) as [[before' w1] [e|]]; cbn in Hlen |- *.
  - rewrite <- Hlen, take_app_length, drop_app_length. done.
  - unfold within, and_then. rewrite Hx.
    destruct (for_each p after w1) as [[after' w2] [e|]]; cbn;
      by rewrite <- Hlen, take_app_length, drop_app_length.
Qed.

(** C9: a job whose variant is none of the nine, a command whose variant
    is none of the eight and a completion that is neither failed nor
    successful are left as they are, and no call is made for them: the run
    ends in the world it started from.  Inside an activation or a
    successful completion, such an element stays where it is and the run is
    the run over the other elements. *)
Theorem unnamed_variants_untouched codec w :
  (forall other, decode_job codec (job_other other) w = (job_other other, w, None))
  /\ (forall other,
       encode_command codec (command_other other) w = (command_other other, w, None))
  /\ (forall other,
       let comp := {| status := status_unset; completion_other := other |} in
       encode_completion codec comp w = (comp, w, None))
  /\ (forall other before after,
       for_each (decode_job codec) (before ++ job_other other :: after) w
       = let run := for_each (decode_job codec) (before ++ after) w in
         (take (length before) run.1.1 ++ job_other other :: drop (length before) run.1.1,
          run.1.2, run.2))
  /\ (forall other before after,
       for_each (encode_command codec) (before ++ command_other other :: after) w
       = let run := for_each (encode_command codec) (before ++ after) w in
         (take (length before) run.1.1
            ++ command_other other :: drop (length before) run.1.1,
          run.1.2, run.2)).
Proof.
  split; [done|]. split; [done|]. split; [done|]. split.
  - intros other before after. by apply for_each_untouched.
  - intros other before after. by apply for_each_untouched.
Qed.

(** *** C1: no count check *)

(** A loop that raised stopped at one element: the elements before it are
    as the loop left them, the element is as its own run left it, and the
    elements after it are untouched. *)
Lemma for_each_raised {T} (p : Proc T) (xs : list T) w e :
  (for_each p xs w).2 = Some e ->
  exists before x after before' w',
    xs = before ++ x :: after
    /\ for_each p before w = (before', w', None)
    /\ (p x w').2 = Some e
    /\ for_each p xs w = (before' ++ (p x w').1.1 :: after, (p x w').1.2, Some e).
Proof.
  revert w. induction xs as [|x xs IH]; intros w; [done|].
  cbn. unfold within, and_then.
  destruct (p x w) as [[x' w1] [e1|]] eqn:Hx; cbn.
  - intros [= ->]. exists [], x, xs, [], w. by rewrite Hx.
  - specialize (IH w1).
    destruct (for_each p xs w1) as [[xs' w2] [e2|]] eqn:Hxs; cbn in *; [|done].
    intros [= ->].
    destruct (IH eq_refl) as (before & y & after & before' & w' & -> & Hb & Hy & Hrun).
    exists (x :: before), y, after, (x' :: before'), w'.
    cbn. unfold within, and_then. rewrite Hx, Hb. repeat split; [done|].
    by injection Hrun as -> -> .
Qed.

(** C1, as the code has it: the engine never compares the number of
    payloads a codec returns with the number it was given.  On a sequence,
    whatever the call returns becomes the field's contents, without an
    exception, so the field is as long as the result.  On a single payload,
    the first payload returned takes its place and any other is dropped;
    only an empty result raises, [IndexError], with the payload left as it
    was.  An exception of the codec goes on unchanged, with the field as it
    was.  Once a call has raised, the pass is over: the exception is the one
    of the job (or command) in which it was raised, the jobs before that one
    are as their own runs left them, and the jobs after it are untouched. *)
Theorem codec_count_not_checked cb payloads payload w :
  _apply_to_bridge_payloads cb payloads w
  = match payloads with
    | [] => ([], w, None)
    | _ :: _ =>
        match cb (from_bridge_payloads payloads) w with
        | (w', inl e) => (payloads, w', Some e)
        | (w', inr result) => (to_bridge_payloads result, w', None)
        end
    end
  /\ _apply_to_bridge_payload cb payload w
     = match cb [from_bridge_payload payload] w with
       | (w', inl e) => (payload, w', Some e)
       | (w', inr []) => (payload, w', Some IndexError)
       | (w', inr (new_payload :: _)) => (to_bridge_payload new_payload, w', None)
       end
  /\ (forall result w',
       cb (from_bridge_payloads payloads) w = (w', inr result) ->
       length (_apply_to_bridge_payloads cb payloads w).1.1
       = match payloads with [] => 0 | _ :: _ => length result end)
  /\ (forall codec act e,
       (decode_activation codec act w).2 = Some e ->
       exists before job after before' w',
         jobs act = before ++ job :: after
         /\ for_each (decode_job codec) before w = (before', w', None)
         /\ (decode_job codec job w').2 = Some e
         /\ decode_activation codec act w
            = ({| jobs := before' ++ (decode_job codec job w').1.1 :: after;
                  activation_other := activation_other act |},
               (decode_job codec job w').1.2, Some e))
  /\ (forall codec commands other other' e,
       let comp := {| status := status_successful commands other;
                      completion_other := other' |} in
       (encode_completion codec comp w).2 = Some e ->
       exists before command after before' w',
         commands = before ++ command :: after
         /\ for_each (encode_command codec) before w = (before', w', None)
         /\ (encode_command codec command w').2 = Some e
         /\ encode_completion codec comp w
            = ({| status :=
                    status_successful
                      (before' ++ (encode_command codec command w').1.1 :: after) other;
                  completion_other := other' |},
               (encode_command codec command w').1.2, Some e)).
Proof.
  split; [|split; [|split; [|split]]].
  - by destruct payloads.
  - apply apply_to_bridge_payload_eq.
  - intros result w' Hcb. destruct payloads as [|p0 ps]; [done|].
    rewrite apply_to_bridge_payloads_cons, Hcb. cbn. apply length_fmap.
  - intros codec act e. unfold decode_activation, within, and_then.
    destruct (for_each (decode_job codec) (jobs act) w) as [[js w1] r] eqn:Hrun.
    intros Hr. assert (r = Some e) as -> by (by destruct r).
    destruct (for_each_raised (decode_job codec) (jobs act) w e)
      as (before & job & after & before' & w' & Hjobs & Hb & He & Hall);
      [by rewrite Hrun|].
    exists before, job, after, before', w'.
    rewrite Hrun in Hall. injection Hall as -> ->. done.
  - intros codec commands other other' e. cbv zeta.
    unfold encode_completion, within, and_then. cbn [status completion_other].
    destruct (for_each (encode_command codec) commands w) as [[cs w1] r] eqn:Hrun.
    intros Hr. assert (r = Some e) as -> by (by destruct r).
    destruct (for_each_raised (encode_command codec) commands w e)
      as (before & command & after & before' & w' & Hcommands & Hb & He & Hall);
      [by rewrite Hrun|].
    exists before, command, after, before', w'.
    rewrite Hrun in Hall. injection Hall as -> ->. done.
Qed.

(** *** C6: scenario A *)

Lemma calls_in_order_returned {T} w expected (run : T * World * option exn) :
  calls_in_order w expected run -> run.2 = None -> calls run.1.2 = calls w ++ expected.
Proof.
  intros (made & rest & -> & Hc & Hr) Hnone. by rewrite (Hr Hnone), app_nil_r.
Qed.

(** C6, as the code has it: on an activation of a signal-workflow job
    with three input payloads followed by a start-workflow job that has a
    continued failure, no arguments and an empty memo, the calls are, in
    this order, one decode call of the Payload Codec on the three payloads
    in their order and one decode call of the Failure Codec on the
    continued failure; a run that raises has made a leading part of them.
    When neither of the two calls raises, the run returns and these are all
    its calls. *)
Theorem scenario_A_calls codec p1 p2 p3 other1 failure other2 other w :
  let inputs := [p1; p2; p3] in
  let act := {| jobs := [signal_workflow inputs other1;
                         start_workflow [] (Some failure) [] other2];
                activation_other := other |} in
  let run := decode_activation codec act w in
  let expected := [PayloadDecode (from_bridge_payloads inputs); FailureDecode failure] in
  calls_in_order w expected run
  /\ payload_codec_calls expected = [PayloadDecode (from_bridge_payloads inputs)]
  /\ failure_codec_calls expected = [FailureDecode failure]
  /\ (run.2 = None -> calls run.1.2 = calls w ++ expected)
  /\ (forall s result,
       decode codec (from_bridge_payloads inputs) (codec_state w) = (s, inr result) ->
       (exceptions_decode_failure codec failure s).2 = None ->
       run.2 = None /\ calls run.1.2 = calls w ++ expected).
Proof.
  cbv zeta.
  assert (Horder : calls_in_order w
            [PayloadDecode (from_bridge_payloads [p1; p2; p3]); FailureDecode failure]
            (decode_activation codec
               {| jobs := [signal_workflow [p1; p2; p3] other1;
                           start_workflow [] (Some failure) [] other2];
                  activation_other := other |} w)).
  { apply (decode_activation_calls codec
             {| jobs := [signal_workflow [p1; p2; p3] other1;
                         start_workflow [] (Some failure) [] other2];
                activation_other := other |} w). }
  split; [exact Horder|]. split; [done|]. split; [done|]. split.
  - by apply calls_in_order_returned.
  - intros s result Hdecode Hfailure.
    assert (Hnone : (decode_activation codec
               {| jobs := [signal_workflow [p1; p2; p3] other1;
                           start_workflow [] (Some failure) [] other2];
                  activation_other := other |} w).2 = None).
    { unfold decode_activation. cbn [jobs for_each decode_job].
      unfold _decode_bridge_payloads at 1. rewrite apply_to_bridge_payloads_cons.
      unfold codec_decode at 1. rewrite Hdecode.
      cbn. unfold decode_failure. cbn.
      by destruct (exceptions_decode_failure codec failure s) as [[f s'] [e|]]. }
    split; [exact Hnone|]. by apply calls_in_order_returned.
Qed.

(** *** C4: shapes are kept *)

Lemma within_message {A T} (m : A * World * option exn) (rebuild : A -> T) :
  (within m rebuild).1.1 = rebuild m.1.1.
Proof. unfold within, and_then. by destruct m as [[a w] [e|]]. Qed.

Lemma and_then_message {A T} (m : A * World * option exn) (rebuild : A -> T) k :
  (and_then m rebuild k).1.1
  = match m.2 with
    | Some _ => rebuild m.1.1
    | None => (k m.1.1 m.1.2).1.1
    end.
Proof. unfold and_then. by destruct m as [[a w] [e|]]. Qed.
















End EngineProperties.

(** ** The engine on the sample messages *)

(** C1 as stated fails: a codec that returns nothing for two payloads, or
    two payloads for one, raises no exception in the engine; the sequence is
    simply replaced by the shorter result, also in the middle of an
    activation. *)
Lemma count_mismatch_not_raised :
  let two := [sample_payload Byte.x01; sample_payload Byte.x02] in
  let run := @_decode_bridge_payloads sample_collab dropping_codec two sample_world in
  let run1 :=
    @_encode_bridge_payload sample_collab doubling_codec (sample_payload Byte.x01)
      sample_world in
  let pass := @decode_activation sample_collab dropping_codec scenario_A sample_world in
  (run.2 = None /\ run.1.1 = [] /\ length two = 2)
  /\ (run1.2 = None /\ run1.1.1 = sample_payload Byte.x01)
  /\ (pass.2 = None
      /\ jobs pass.1.1
         = [@signal_workflow sample_collab [] "signal_name"%string;
            @start_workflow sample_collab [] (Some "continued"%string) [] "wf"%string]).
Proof. vm_compute. repeat split. Qed.

Lemma payload_sequence_one_call_witness :
  (1 <= length [sample_payload Byte.x01; sample_payload Byte.x02])%nat
  /\ calls
       (@_decode_bridge_payloads sample_collab counting_codec
          [sample_payload Byte.x01; sample_payload Byte.x02] sample_world).1.2
     = calls sample_world
       ++ [@PayloadDecode sample_collab
             (from_bridge_payloads [sample_payload Byte.x01; sample_payload Byte.x02])].
Proof.
  assert (H : (1 <= length [sample_payload Byte.x01; sample_payload Byte.x02])%nat)
    by (cbn; lia).
  split; [exact H|].
  exact (proj1 (proj1 (proj2
    (@payload_sequence_one_call sample_collab counting_codec
       [sample_payload Byte.x01; sample_payload Byte.x02] sample_world H)))).
Defined.

Lemma counting_codec_keeps_count : @keeps_count sample_collab counting_codec.
Proof. intros payloads s s' result. split; intros [= _ ->]; reflexivity. Qed.


(** C6 as stated fails: with one entry in the memo of the start-workflow
    job, the Payload Codec is called twice, once on the three inputs and once
    on the memo value. *)
Lemma scenario_A_memo_second_call :
  let run := @decode_activation sample_collab counting_codec scenario_A_with_memo
               sample_world in
  run.2 = None
  /\ payload_codec_calls (calls run.1.2)
     = [@PayloadDecode sample_collab
          (from_bridge_payloads
             [sample_payload Byte.x01; sample_payload Byte.x02; sample_payload Byte.x03]);
        @PayloadDecode sample_collab [from_bridge_payload (sample_payload Byte.x04)]]
  /\ failure_codec_calls (calls run.1.2) = [@FailureDecode sample_collab "continued"%string].
Proof. vm_compute. repeat split. Qed.

Lemma scenario_A_calls_witness :
  let run := @decode_activation sample_collab counting_codec scenario_A sample_world in
  run.2 = None
  /\ calls run.1.2
     = [@PayloadDecode sample_collab
          (from_bridge_payloads
             [sample_payload Byte.x01; sample_payload Byte.x02; sample_payload Byte.x03]);
        @FailureDecode sample_collab "continued"%string].
Proof.
  exact (proj2 (proj2 (proj2 (proj2
    (@scenario_A_calls sample_collab counting_codec
       (sample_payload Byte.x01) (sample_payload Byte.x02) (sample_payload Byte.x03)
       "signal_name"%string "continued"%string "wf"%string "run-1"%string sample_world))))
    3 _ eq_refl eq_refl).
Defined.

(** * Further properties *)

(** ** Retry policy, from the wire and into a used message *)

Section RetryPolicyWire.
Context {dur : DurationOps} {float : Type}.


(** X2: what [retry_policy_to_proto] does to a message that is not fresh.
    When the policy's maximum attempts fit the [int32] field, it returns and
    the policy's error types come after the ones the message already lists, so
    writing the same policy twice lists them twice.  When they do not fit, it
    raises [ValueError] with the message half written: the initial interval
    and the coefficient are the policy's already, the attempts and the error
    types are still the message's.  Either way a maximum interval already in
    the message stays when the policy has none or has zero. *)
Theorem retry_policy_to_proto_adds (p : RetryPolicy float) (v : ProtoRetryPolicy dur float) :
  let written := retry_policy_to_proto p v in
  (if in_int32 (maximum_attempts p)
   then
     written.2 = None
     /\ int32_value (proto_maximum_attempts written.1) = maximum_attempts p
     /\ proto_non_retryable_error_types written.1
        = proto_non_retryable_error_types v ++ default [] (non_retryable_error_types p)
     /\ proto_non_retryable_error_types (retry_policy_to_proto p written.1).1
        = proto_non_retryable_error_types v
          ++ default [] (non_retryable_error_types p)
          ++ default [] (non_retryable_error_types p)
   else
     written.2 = Some ValueError
     /\ proto_initial_interval written.1 = Some (FromTimedelta (initial_interval p))
     /\ proto_backoff_coefficient written.1 = backoff_coefficient p
     /\ proto_maximum_attempts written.1 = proto_maximum_attempts v
     /\ proto_non_retryable_error_types written.1 = proto_non_retryable_error_types v)
  /\ (maximum_interval p = None \/ maximum_interval p = Some 0%Z ->
      proto_maximum_interval written.1 = proto_maximum_interval v)
  /\ (forall td, maximum_interval p = Some td -> td <> 0%Z ->
      proto_maximum_interval written.1 = Some (FromTimedelta td)).
Proof.
  cbv zeta. split; [|split].
  - destruct (in_int32 (maximum_attempts p)) eqn:Hrange.
    + assert (Hadd : forall v0 : ProtoRetryPolicy dur float,
        (retry_policy_to_proto p v0).2 = None
        /\ int32_value (proto_maximum_attempts (retry_policy_to_proto p v0).1)
           = maximum_attempts p
        /\ proto_non_retryable_error_types (retry_policy_to_proto p v0).1
           = proto_non_retryable_error_types v0
             ++ default [] (non_retryable_error_types p)).
      { intros v0. unfold retry_policy_to_proto.
        destruct (int32_assign_in _ Hrange) as (attempts & -> & Hattempts). cbn.
        repeat split; [done|].
        destruct (non_retryable_error_types p) as [[|x l]|]; cbn; by rewrite ?app_nil_r. }
      destruct (Hadd v) as (H1 & H2 & H3). repeat split; [done|done|done|].
      destruct (Hadd (retry_policy_to_proto p v).1) as (_ & _ & ->).
      by rewrite H3, <- (assoc_L (++)).
    + unfold retry_policy_to_proto. by rewrite (int32_assign_out _ Hrange).
  - intros H. unfold retry_policy_to_proto.
    destruct (int32_assign (maximum_attempts p)); cbn; by destruct H as [->| ->].
  - intros td H Hnz. unfold retry_policy_to_proto.
    destruct (int32_assign (maximum_attempts p)); cbn; rewrite H; cbn;
      unfold timedelta_truthy; by destruct (Z.eqb_spec td 0).
Qed.
End RetryPolicyWire.


(** ** The worker handle, all of its methods *)

Section WorkerIOProperties.
Context {core : NativeWorker} {io : NativeWorkerIO core} {msgs : BridgeMessages}.

Lemma on_ref_has_ref (m : WorkerRef -> WorkerRef * option exn) (self : Worker core) :
  has_ref (on_ref m self).1 = has_ref self.
Proof.
  unfold on_ref, has_ref. destruct self as [[ref|]]; cbn; [|done].
  by destruct (m ref).
Qed.

Lemma on_ref_poll_has_ref {A} m (parse : bytes -> exn + A) (self : Worker core) :
  has_ref (on_ref_poll m parse self).1 = has_ref self.
Proof.
  unfold on_ref_poll, has_ref. destruct self as [[ref|]]; cbn; [|done].
  by destruct (m ref).
Qed.

Lemma on_ref_poll_None {A} m (parse : bytes -> exn + A) (self : Worker core) :
  _ref self = None -> on_ref_poll m parse self = (self, inl AttributeError).
Proof. intros H. unfold on_ref_poll. by rewrite H. Qed.

(** X3: once [finalize_shutdown] has been called, whether it succeeded or
    not, every other method of the handle raises [AttributeError] at once and
    leaves the handle as it is: both polls, both completions, the heartbeat
    and the eviction request. *)
Theorem finalized_handle_refuses (self : Worker core) comp task_comp heartbeat run_id :
  let after := (finalize_shutdown self).1 in
  poll_workflow_activation after = (after, inl AttributeError)
  /\ poll_activity_task after = (after, inl AttributeError)
  /\ complete_workflow_activation comp after = (after, Some AttributeError)
  /\ complete_activity_task task_comp after = (after, Some AttributeError)
  /\ record_activity_heartbeat heartbeat after = (after, Some AttributeError)
  /\ request_workflow_eviction run_id after = (after, Some AttributeError).
Proof.
  cbv zeta. pose proof (finalize_shutdown_ref self) as Hnone.
  repeat split; first [by apply on_ref_poll_None | by apply on_ref_None].
Qed.

(** X4: no method but [finalize_shutdown] ever gives up the reference: a
    handle has its reference after a poll, a completion, a heartbeat, an
    eviction request or [shutdown] exactly when it had it before, whatever
    the core answered, so a poll that ended with an exception can be
    followed by another call; after [finalize_shutdown] it never has. *)
Theorem only_finalize_gives_up_reference (self : Worker core) comp task_comp heartbeat
    run_id :
  has_ref (poll_workflow_activation self).1 = has_ref self
  /\ has_ref (poll_activity_task self).1 = has_ref self
  /\ has_ref (complete_workflow_activation comp self).1 = has_ref self
  /\ has_ref (complete_activity_task task_comp self).1 = has_ref self
  /\ has_ref (record_activity_heartbeat heartbeat self).1 = has_ref self
  /\ has_ref (request_workflow_eviction run_id self).1 = has_ref self
  /\ has_ref (shutdown self).1 = has_ref self
  /\ has_ref (finalize_shutdown self).1 = false.
Proof.
  repeat split; try apply on_ref_poll_has_ref; try apply on_ref_has_ref.
  unfold has_ref. by rewrite finalize_shutdown_ref.
Qed.
End WorkerIOProperties.

(** ** The traversals, further *)

Section EngineFurther.
Context {collab : Collaborators}.
Implicit Types (codec : PayloadCodec CodecState) (w : World).

(** *** What is never asked of a codec *)

Lemma calls_in_order_forallb {T} (P : Call -> bool) w expected
    (run : T * World * option exn) :
  calls_in_order w expected run ->
  forallb P expected = true ->
  exists made, calls run.1.2 = calls w ++ made /\ forallb P made = true.
Proof.
  intros (made & rest & -> & Hc & _) HP. exists made. split; [done|].
  rewrite forallb_app in HP. by apply andb_prop in HP as [-> _].
Qed.

Lemma forallb_concat_fmap {A} (P : Call -> bool) (f : A -> list Call) (xs : list A) :
  (forall x, forallb P (f x) = true) -> forallb P (concat (f <$> xs)) = true.
Proof.
  intros Hf. induction xs as [|x xs IH]; [done|].
  cbn. by rewrite forallb_app, Hf, IH.
Qed.

Lemma forallb_fmap_true {A} (P : Call -> bool) (g : A -> Call) (xs : list A) :
  (forall x, P (g x) = true) -> forallb P (g <$> xs) = true.
Proof. intros Hg. induction xs as [|x xs IH]; [done|]. cbn. by rewrite Hg, IH. Qed.

Lemma sequence_calls_carry mk payloads :
  (forall ps, mk ps = PayloadDecode ps) \/ (forall ps, mk ps = PayloadEncode ps) ->
  forallb carries_payloads (sequence_calls mk payloads) = true.
Proof. intros [H|H]; destruct payloads; cbn; rewrite ?H; done. Qed.

Lemma job_calls_carry (job : Job) : forallb carries_payloads (job_calls job) = true.
Proof.
  destruct job as [details other|arguments other|[| [res|] | |] other
                  |[| [res|] | |] other|[failure other'|other'] other
                  |[failure|] other|[failure|] other
                  |input other|arguments [continued_failure|] memo other|other];
    cbn [job_calls outcome_calls optional_calls];
    rewrite ?forallb_app, ?sequence_calls_carry by (by left);
    rewrite ?forallb_fmap_true by done; done.
Qed.

Lemma command_calls_carry (command : Command) :
  forallb carries_payloads (command_calls command) = true.
Proof.
  destruct command as [[result|] other|arguments memo other|failure other
                      |[failure|[response|] other'|other'] other|arguments other
                      |arguments other|args other|input memo other|other];
    cbn [command_calls optional_calls];
    rewrite ?forallb_app, ?sequence_calls_carry by (by right);
    rewrite ?forallb_fmap_true by done; done.
Qed.

(** X5: neither traversal ever calls the Payload Codec with an empty list:
    every call that [decode_activation] or [encode_completion] adds to the log
    carries at least one payload (or a failure). *)
Theorem codec_never_given_nothing codec :
  (forall act w,
      exists made,
        calls (decode_activation codec act w).1.2 = calls w ++ made
        /\ forallb carries_payloads made = true)
  /\ (forall comp w,
      exists made,
        calls (encode_completion codec comp w).1.2 = calls w ++ made
        /\ forallb carries_payloads made = true).
Proof.
  split.
  - intros act w.
    apply (calls_in_order_forallb carries_payloads w (activation_calls act));
      [apply decode_activation_calls|].
    apply forallb_concat_fmap, job_calls_carry.
  - intros comp w.
    apply (calls_in_order_forallb carries_payloads w (completion_calls comp));
      [apply encode_completion_calls|].
    unfold completion_calls. destruct (status comp) as [failure other|commands other|];
      [done| |done].
    apply forallb_concat_fmap, command_calls_carry.
Qed.

Lemma job_calls_decode (job : Job) : forallb is_decode_call (job_calls job) = true.
Proof.
  destruct job as [[|d ds] other|[|a args] other|[| [res|] | |] other
                  |[| [res|] | |] other|[failure other'|other'] other
                  |[failure|] other|[failure|] other
                  |[|i ins] other|[|a args] [continued_failure|] memo other|other];
    cbn [job_calls outcome_calls optional_calls sequence_calls];
    rewrite ?forallb_app, ?forallb_fmap_true by done; done.
Qed.

Lemma command_calls_encode (command : Command) :
  forallb (fun c => negb (is_decode_call c)) (command_calls command) = true.
Proof.
  destruct command as [[result|] other|[|a args] memo other|failure other
                      |[failure|[response|] other'|other'] other|[|a args] other
                      |[|a args] other|[|a args] other|[|i ins] memo other|other];
    cbn [command_calls optional_calls sequence_calls];
    rewrite ?forallb_app, ?forallb_fmap_true by done; done.
Qed.

(** X6: the two directions are never mixed: every call that
    [decode_activation] makes is a decode call, of the Payload Codec or of the
    Failure Codec, and every call that [encode_completion] makes is an encode
    call. *)
Theorem directions_not_mixed codec :
  (forall act w,
      exists made,
        calls (decode_activation codec act w).1.2 = calls w ++ made
        /\ forallb is_decode_call made = true)
  /\ (forall comp w,
      exists made,
        calls (encode_completion codec comp w).1.2 = calls w ++ made
        /\ forallb (fun c => negb (is_decode_call c)) made = true).
Proof.
  split.
  - intros act w.
    apply (calls_in_order_forallb is_decode_call w (activation_calls act));
      [apply decode_activation_calls|].
    apply forallb_concat_fmap, job_calls_decode.
  - intros comp w.
    apply (calls_in_order_forallb _ w (completion_calls comp));
      [apply encode_completion_calls|].
    unfold completion_calls. destruct (status comp) as [failure other|commands other|];
      [done| |done].
    apply forallb_concat_fmap, command_calls_encode.
Qed.

(** *** How a run ends *)

Lemma within_outcome {A T} (m : A * World * option exn) (rebuild : A -> T) :
  (within m rebuild).2 = m.2.
Proof. unfold within, and_then. by destruct m as [[a w] [e|]]. Qed.

Lemma and_then_outcome {A T} (m : A * World * option exn) (rebuild : A -> T) k :
  (and_then m rebuild k).2
  = match m.2 with
    | Some e => Some e
    | None => (k m.1.1 m.1.2).2
    end.
Proof. unfold and_then. by destruct m as [[a w] [e|]]. Qed.

Lemma if_present_returns {T} (p : Proc T) :
  (forall t w, (p t w).2 = None) -> forall o w, (if_present p o w).2 = None.
Proof. intros Hp [t|] w; [|done]. cbn. by rewrite within_outcome. Qed.

Lemma for_each_returns {T} (p : Proc T) :
  (forall x w, (p x w).2 = None) -> forall xs w, (for_each p xs w).2 = None.
Proof.
  intros Hp xs. induction xs as [|x xs IH]; intros w; [done|].
  cbn [for_each]. rewrite and_then_outcome, Hp, within_outcome. apply IH.
Qed.

Lemma for_each_value_returns {T} (p : Proc T) :
  (forall t w, (p t w).2 = None) -> forall memo w, (for_each_value p memo w).2 = None.
Proof.
  intros Hp memo w. apply for_each_returns. intros kv w'. by rewrite within_outcome.
Qed.

Lemma apply_to_bridge_payloads_returns cb :
  (forall ps w, exists w' result, cb ps w = (w', inr result)) ->
  forall payloads w, (_apply_to_bridge_payloads cb payloads w).2 = None.
Proof.
  intros Hcb [|payload payloads] w; [done|].
  rewrite apply_to_bridge_payloads_cons.
  by destruct (Hcb (from_bridge_payloads (payload :: payloads)) w) as (w' & result & ->).
Qed.

Lemma apply_to_bridge_payload_returns cb :
  (forall ps w, exists w' result, cb ps w = (w', inr result)
                                  /\ length result = length ps) ->
  forall payload w, (_apply_to_bridge_payload cb payload w).2 = None.
Proof.
  intros Hcb payload w. rewrite apply_to_bridge_payload_eq.
  destruct (Hcb [from_bridge_payload payload] w) as (w' & result & -> & Hlen).
  by destruct result.
Qed.

Lemma codec_decode_returns codec :
  never_raises codec -> keeps_count codec ->
  forall ps w, exists w' result,
    codec_decode codec ps w = (w', inr result) /\ length result = length ps.
Proof.
  intros (Hd & _) Hk ps w. unfold codec_decode.
  destruct (Hd ps (codec_state w)) as (s' & result & Hrun). rewrite Hrun.
  eexists _, result. split; [done|]. exact (proj1 (Hk ps _ s' result) Hrun).
Qed.

Lemma codec_encode_returns codec :
  never_raises codec -> keeps_count codec ->
  forall ps w, exists w' result,
    codec_encode codec ps w = (w', inr result) /\ length result = length ps.
Proof.
  intros (_ & He & _) Hk ps w. unfold codec_encode.
  destruct (He ps (codec_state w)) as (s' & result & Hrun). rewrite Hrun.
  eexists _, result. split; [done|]. exact (proj2 (Hk ps _ s' result) Hrun).
Qed.

Lemma decode_failure_returns codec failure w :
  never_raises codec -> (decode_failure codec failure w).2 = None.
Proof.
  intros (_ & _ & Hf & _). unfold decode_failure. specialize (Hf failure (codec_state w)).
  by destruct (exceptions_decode_failure codec failure (codec_state w)) as [[f s] r].
Qed.

Lemma encode_failure_returns codec failure w :
  never_raises codec -> (encode_failure codec failure w).2 = None.
Proof.
  intros (_ & _ & _ & Hf). unfold encode_failure. specialize (Hf failure (codec_state w)).
  by destruct (exceptions_encode_failure codec failure (codec_state w)) as [[f s] r].
Qed.

Section GoodCollaborators.
Variable codec : PayloadCodec CodecState.
Hypothesis Hnever : never_raises codec.
Hypothesis Hcount : keeps_count codec.

Lemma decode_payloads_returns payloads w :
  (_decode_bridge_payloads codec payloads w).2 = None.
Proof.
  apply apply_to_bridge_payloads_returns. intros ps w0.
  destruct (codec_decode_returns codec Hnever Hcount ps w0) as (w' & r & H & _). eauto.
Qed.

Lemma encode_payloads_returns payloads w :
  (_encode_bridge_payloads codec payloads w).2 = None.
Proof.
  apply apply_to_bridge_payloads_returns. intros ps w0.
  destruct (codec_encode_returns codec Hnever Hcount ps w0) as (w' & r & H & _). eauto.
Qed.

Lemma decode_payload_returns payload w :
  (_decode_bridge_payload codec payload w).2 = None.
Proof. by apply apply_to_bridge_payload_returns, codec_decode_returns. Qed.

Lemma encode_payload_returns payload w :
  (_encode_bridge_payload codec payload w).2 = None.
Proof. by apply apply_to_bridge_payload_returns, codec_encode_returns. Qed.

Lemma decode_memo_value_returns val w : (decode_memo_value codec val w).2 = None.
Proof.
  rewrite decode_memo_value_eq.
  destruct (codec_decode_returns codec Hnever Hcount [val] w) as (w' & r & -> & Hlen).
  by destruct r.
Qed.

Lemma decode_job_returns job w : (decode_job codec job w).2 = None.
Proof.
  destruct job as [details other|arguments other|[| res | |] other
                  |[| [res|] | |] other|[failure other'|other'] other
                  |failure other|failure other
                  |input other|arguments continued_failure memo other|other];
    cbn [decode_job decode_activity_result decode_child_result skip snd];
    rewrite ?within_outcome, ?and_then_outcome;
    rewrite ?decode_payloads_returns, ?decode_payload_returns;
    rewrite ?within_outcome, ?and_then_outcome;
    try done;
    try (by apply decode_failure_returns);
    try (by apply if_present_returns; intros; first
               [apply decode_failure_returns | apply decode_payload_returns]).
  rewrite if_present_returns by (by intros; apply decode_failure_returns).
  apply for_each_value_returns, decode_memo_value_returns.
Qed.

Lemma encode_command_returns command w : (encode_command codec command w).2 = None.
Proof.
  destruct command as [result other|arguments memo other|failure other
                      |[failure|[response|] other'|other'] other|arguments other
                      |arguments other|args other|input memo other|other];
    cbn [encode_command skip snd];
    rewrite ?within_outcome, ?and_then_outcome;
    rewrite ?encode_payloads_returns, ?encode_payload_returns;
    rewrite ?within_outcome;
    try done;
    try (by apply encode_failure_returns);
    try (by apply if_present_returns, encode_payload_returns);
    try (by apply for_each_value_returns, encode_payload_returns).
Qed.
End GoodCollaborators.

(** X7: with collaborators that never raise and a codec that returns as
    many payloads as it is given, [decode_activation] and [encode_completion]
    return on every message: neither can end in an exception of its own. *)
Theorem good_collaborators_return codec :
  never_raises codec -> keeps_count codec ->
  (forall act w, (decode_activation codec act w).2 = None)
  /\ (forall comp w, (encode_completion codec comp w).2 = None).
Proof.
  intros Hn Hk. split.
  - intros act w. unfold decode_activation. rewrite within_outcome.
    apply for_each_returns. intros job w'. by apply decode_job_returns.
  - intros [st other] w. unfold encode_completion. cbn [status].
    destruct st as [failure other'|commands other'|]; rewrite ?within_outcome; [| |done].
    + by apply encode_failure_returns.
    + apply for_each_returns. intros command w'. by apply encode_command_returns.
Qed.

(** *** A codec that changes nothing *)

Lemma within_unchanged {A T} (m : A * World * option exn) (rebuild : A -> T) a :
  m.1.1 = a /\ m.2 = None ->
  (within m rebuild).1.1 = rebuild a /\ (within m rebuild).2 = None.
Proof. intros [<- H]. by rewrite within_message, within_outcome. Qed.

Lemma and_then_unchanged {A T} (m : A * World * option exn) (rebuild : A -> T) k a t :
  m.1.1 = a /\ m.2 = None ->
  (forall w', (k a w').1.1 = t /\ (k a w').2 = None) ->
  (and_then m rebuild k).1.1 = t /\ (and_then m rebuild k).2 = None.
Proof.
  intros [<- H] Hk. rewrite and_then_message, and_then_outcome, H. apply Hk.
Qed.

Lemma if_present_unchanged {T} (p : Proc T) :
  (forall t w, (p t w).1.1 = t /\ (p t w).2 = None) ->
  forall o w, (if_present p o w).1.1 = o /\ (if_present p o w).2 = None.
Proof. intros Hp [t|] w; [|done]. cbn. by apply within_unchanged. Qed.

Lemma for_each_unchanged {T} (p : Proc T) :
  (forall x w, (p x w).1.1 = x /\ (p x w).2 = None) ->
  forall xs w, (for_each p xs w).1.1 = xs /\ (for_each p xs w).2 = None.
Proof.
  intros Hp xs. induction xs as [|x xs IH]; intros w; [done|].
  cbn [for_each]. apply (and_then_unchanged _ _ _ x); [apply Hp|].
  intros w'. by apply within_unchanged.
Qed.

Lemma for_each_value_unchanged {T} (p : Proc T) :
  (forall t w, (p t w).1.1 = t /\ (p t w).2 = None) ->
  forall memo w,
    (for_each_value p memo w).1.1 = memo /\ (for_each_value p memo w).2 = None.
Proof.
  intros Hp memo w. apply for_each_unchanged. intros [k v] w'.
  by apply (within_unchanged _ (fun v0 => (k, v0)) v).
Qed.

Ltac unchanged_within a :=
  match goal with
  | |- (within ?m ?rb).1.1 = _ /\ _ => apply (within_unchanged m rb a)
  end.

Ltac unchanged_and_then a :=
  match goal with
  | |- (and_then ?m ?rb ?k).1.1 = ?t /\ _ => apply (and_then_unchanged m rb k a t)
  end.

Section HandsBack.
Variable codec : PayloadCodec CodecState.
Hypothesis Hback : encode_hands_back codec.

Lemma encode_payloads_unchanged payloads w :
  (_encode_bridge_payloads codec payloads w).1.1 = payloads
  /\ (_encode_bridge_payloads codec payloads w).2 = None.
Proof.
  destruct payloads as [|payload payloads]; [done|].
  unfold _encode_bridge_payloads. rewrite apply_to_bridge_payloads_cons.
  unfold codec_encode.
  destruct (proj1 Hback (from_bridge_payloads (payload :: payloads)) (codec_state w))
    as (s' & ->).
  cbn [fst snd]. by rewrite to_from_bridge_payloads.
Qed.

Lemma encode_payload_unchanged payload w :
  (_encode_bridge_payload codec payload w).1.1 = payload
  /\ (_encode_bridge_payload codec payload w).2 = None.
Proof.
  unfold _encode_bridge_payload. rewrite apply_to_bridge_payload_eq.
  unfold codec_encode.
  destruct (proj1 Hback [from_bridge_payload payload] (codec_state w)) as (s' & ->).
  cbn [fst snd]. by rewrite to_from_bridge_payload.
Qed.

Lemma encode_failure_unchanged failure w :
  (encode_failure codec failure w).1.1 = failure
  /\ (encode_failure codec failure w).2 = None.
Proof.
  unfold encode_failure.
  by destruct (proj2 Hback failure (codec_state w)) as (s' & ->).
Qed.

Lemma encode_command_unchanged command w :
  (encode_command codec command w).1.1 = command
  /\ (encode_command codec command w).2 = None.
Proof.
  destruct command as [result other|arguments memo other|failure other
                      |[failure|[response|] other'|other'] other|arguments other
                      |arguments other|args other|input memo other|other];
    cbn [encode_command]; try done.
  - unchanged_within result; apply if_present_unchanged, encode_payload_unchanged.
  - unchanged_and_then arguments; [apply encode_payloads_unchanged|].
    intros w'. unchanged_within memo; apply for_each_value_unchanged,
      encode_payload_unchanged.
  - unchanged_within failure; apply encode_failure_unchanged.
  - unchanged_within failure; apply encode_failure_unchanged.
  - unchanged_within response; apply encode_payload_unchanged.
  - unchanged_within arguments; apply encode_payloads_unchanged.
  - unchanged_within arguments; apply encode_payloads_unchanged.
  - unchanged_within args; apply encode_payloads_unchanged.
  - unchanged_and_then input; [apply encode_payloads_unchanged|].
    intros w'. unchanged_within memo; apply for_each_value_unchanged,
      encode_payload_unchanged.
Qed.
End HandsBack.

(** X8: with a codec whose [encode] returns the payloads it is given and a
    failure codec that leaves failures alone, [encode_completion] returns and
    the completion is, field for field, the one it was given: the copies made
    on the way to the codec and back lose nothing. *)
Theorem encode_completion_changes_nothing codec :
  encode_hands_back codec ->
  forall comp w,
    (encode_completion codec comp w).1.1 = comp
    /\ (encode_completion codec comp w).2 = None.
Proof.
  intros Hback [st other] w. unfold encode_completion. cbn [status completion_other].
  destruct st as [failure other'|commands other'|]; [| |done].
  - unchanged_within failure. by apply encode_failure_unchanged.
  - unchanged_within commands; apply for_each_unchanged.
    intros command w'. by apply encode_command_unchanged.
Qed.

(** *** Encoding, then decoding *)

(** X9: with a codec that returns as many payloads as it is given and whose
    [decode] takes back what its [encode] did, a payload sequence that is
    encoded in place and then decoded in place is the sequence it was, and so
    is a single payload; both runs return. *)
Theorem encode_then_decode_restores codec :
  keeps_count codec -> decode_undoes_encode codec ->
  (forall payloads w,
      let encoded := _encode_bridge_payloads codec payloads w in
      let decoded := _decode_bridge_payloads codec encoded.1.1 encoded.1.2 in
      encoded.2 = None /\ decoded.2 = None /\ decoded.1.1 = payloads)
  /\ (forall payload w,
      let encoded := _encode_bridge_payload codec payload w in
      let decoded := _decode_bridge_payload codec encoded.1.1 encoded.1.2 in
      encoded.2 = None /\ decoded.2 = None /\ decoded.1.1 = payload).
Proof.
  intros Hk Hinv. split.
  - intros [|payload payloads] w; [done|]. cbv zeta.
    unfold _encode_bridge_payloads, _decode_bridge_payloads.
    rewrite apply_to_bridge_payloads_cons. unfold codec_encode.
    destruct (Hinv (from_bridge_payloads (payload :: payloads)) (codec_state w))
      as (s1 & encoded & Henc & Hdec).
    rewrite Henc. cbn [fst snd].
    pose proof (proj2 (Hk _ _ _ _) Henc) as Hlen.
    destruct encoded as [|e es]; [done|].
    change (to_bridge_payloads (e :: es))
      with (to_bridge_payload e :: to_bridge_payloads es).
    rewrite apply_to_bridge_payloads_cons.
    change (to_bridge_payload e :: to_bridge_payloads es)
      with (to_bridge_payloads (e :: es)).
    rewrite from_to_bridge_payloads. unfold codec_decode. cbn [codec_state].
    destruct (Hdec s1) as (s3 & ->). cbn [fst snd].
    by rewrite to_from_bridge_payloads.
  - intros payload w. cbv zeta.
    unfold _encode_bridge_payload, _decode_bridge_payload.
    rewrite apply_to_bridge_payload_eq. unfold codec_encode.
    destruct (Hinv [from_bridge_payload payload] (codec_state w))
      as (s1 & encoded & Henc & Hdec).
    rewrite Henc. cbn [fst snd].
    pose proof (proj2 (Hk _ _ _ _) Henc) as Hlen.
    destruct encoded as [|e [|e' es]]; try done. cbn [fst snd].
    rewrite apply_to_bridge_payload_eq, from_to_bridge_payload.
    unfold codec_decode. cbn [codec_state].
    destruct (Hdec s1) as (s3 & ->). cbn [fst snd].
    by rewrite to_from_bridge_payload.
Qed.

(** *** The state goes from call to call *)

Lemma state_after_all_app codec (cs1 cs2 : list Call) s :
  state_after_all codec (cs1 ++ cs2) s
  = state_after_all codec cs2 (state_after_all codec cs1 s).
Proof. apply foldl_app. Qed.

Lemma threaded_one {T} codec w (c : Call) (run : T * World * option exn) :
  calls run.1.2 = calls w ++ [c] ->
  codec_state run.1.2 = state_after codec c (codec_state w) ->
  calls_threaded codec w [c] run.
Proof. intros Hc Hs. exists [c], []. by rewrite Hc, Hs. Qed.

Lemma threaded_skip {T} codec w (t : T) : calls_threaded codec w [] (skip t w).
Proof. exists [], []. cbn. by rewrite app_nil_r. Qed.

Lemma threaded_and_then {A T} codec w e1 e2 (m : A * World * option exn)
    (rebuild : A -> T) (k : A -> World -> T * World * option exn) :
  calls_threaded codec w e1 m ->
  (forall a w', calls_threaded codec w' e2 (k a w')) ->
  calls_threaded codec w (e1 ++ e2) (and_then m rebuild k).
Proof.
  intros (made & rest & -> & Hc & Hs & Hr) Hk.
  destruct m as [[a w1] [e|]]; cbn in *.
  - exists made, (rest ++ e2). by rewrite <- (assoc_L (++)).
  - rewrite (Hr eq_refl), app_nil_r in *.
    destruct (Hk a w1) as (made2 & rest2 & -> & Hc2 & Hs2 & Hr2).
    exists (made ++ made2), rest2.
    rewrite Hc2, Hc, Hs2, Hs, state_after_all_app. by rewrite !(assoc_L (++)).
Qed.

Lemma threaded_within {A T} codec w e (m : A * World * option exn) (rebuild : A -> T) :
  calls_threaded codec w e m -> calls_threaded codec w e (within m rebuild).
Proof.
  intros H. unfold within. rewrite <- (app_nil_r e).
  apply threaded_and_then; [done|].
  intros a w'. apply (threaded_skip codec w' (rebuild a)).
Qed.

Lemma threaded_if_present {T} codec (mk : T -> Call) (p : Proc T) :
  (forall t w, calls_threaded codec w [mk t] (p t w)) ->
  forall o w, calls_threaded codec w (optional_calls mk o) (if_present p o w).
Proof.
  intros Hp [t|] w; cbn.
  - by apply threaded_within.
  - apply (threaded_skip codec w None).
Qed.

Lemma threaded_for_each {T} codec (f : T -> list Call) (p : Proc T) :
  (forall x w, calls_threaded codec w (f x) (p x w)) ->
  forall xs w, calls_threaded codec w (concat (f <$> xs)) (for_each p xs w).
Proof.
  intros Hp xs. induction xs as [|x xs IH]; intros w; cbn.
  - apply (threaded_skip codec w []).
  - apply threaded_and_then; [apply Hp|].
    intros a w'. apply threaded_within, IH.
Qed.

Lemma threaded_for_each_value {T} codec (mk : T -> Call) (p : Proc T) :
  (forall t w, calls_threaded codec w [mk t] (p t w)) ->
  forall memo w,
    calls_threaded codec w ((fun kv => mk kv.2) <$> memo) (for_each_value p memo w).
Proof.
  intros Hp memo w. unfold for_each_value.
  rewrite <- (concat_singletons (fun kv : string * T => mk kv.2)).
  apply (threaded_for_each codec (fun kv : string * T => [mk kv.2])).
  intros kv w'. by apply threaded_within.
Qed.

Lemma state_codec_decode codec ps w :
  codec_state (codec_decode codec ps w).1 = (decode codec ps (codec_state w)).1.
Proof. unfold codec_decode. by destruct (decode codec ps (codec_state w)). Qed.

Lemma state_codec_encode codec ps w :
  codec_state (codec_encode codec ps w).1 = (encode codec ps (codec_state w)).1.
Proof. unfold codec_encode. by destruct (encode codec ps (codec_state w)). Qed.

Lemma threaded_decode_payloads codec payloads w :
  calls_threaded codec w (sequence_calls PayloadDecode payloads)
    (_decode_bridge_payloads codec payloads w).
Proof.
  destruct payloads as [|payload payloads].
  - apply (threaded_skip codec w []).
  - unfold _decode_bridge_payloads. rewrite apply_to_bridge_payloads_cons.
    cbn [sequence_calls].
    apply threaded_one; cbn [state_after];
      [rewrite <- (calls_codec_decode codec)|rewrite <- state_codec_decode];
      by destruct (codec_decode codec _ w) as [w' [e|result]].
Qed.

Lemma threaded_encode_payloads codec payloads w :
  calls_threaded codec w (sequence_calls PayloadEncode payloads)
    (_encode_bridge_payloads codec payloads w).
Proof.
  destruct payloads as [|payload payloads].
  - apply (threaded_skip codec w []).
  - unfold _encode_bridge_payloads. rewrite apply_to_bridge_payloads_cons.
    cbn [sequence_calls].
    apply threaded_one; cbn [state_after];
      [rewrite <- (calls_codec_encode codec)|rewrite <- state_codec_encode];
      by destruct (codec_encode codec _ w) as [w' [e|result]].
Qed.

Lemma threaded_decode_payload codec payload w :
  calls_threaded codec w [single PayloadDecode payload]
    (_decode_bridge_payload codec payload w).
Proof.
  unfold _decode_bridge_payload. rewrite apply_to_bridge_payload_eq. unfold single.
  apply threaded_one; cbn [state_after];
    [rewrite <- (calls_codec_decode codec)|rewrite <- state_codec_decode];
    by destruct (codec_decode codec _ w) as [w' [e|[|new_payload rest]]].
Qed.

Lemma threaded_encode_payload codec payload w :
  calls_threaded codec w [single PayloadEncode payload]
    (_encode_bridge_payload codec payload w).
Proof.
  unfold _encode_bridge_payload. rewrite apply_to_bridge_payload_eq. unfold single.
  apply threaded_one; cbn [state_after];
    [rewrite <- (calls_codec_encode codec)|rewrite <- state_codec_encode];
    by destruct (codec_encode codec _ w) as [w' [e|[|new_payload rest]]].
Qed.

Lemma threaded_memo_value codec val w :
  calls_threaded codec w [PayloadDecode [val]] (decode_memo_value codec val w).
Proof.
  rewrite decode_memo_value_eq.
  apply threaded_one; cbn [state_after];
    [rewrite <- (calls_codec_decode codec)|rewrite <- state_codec_decode];
    by destruct (codec_decode codec [val] w) as [w' [e|[|new_payload rest]]].
Qed.

Lemma threaded_decode_failure codec failure w :
  calls_threaded codec w [FailureDecode failure] (decode_failure codec failure w).
Proof.
  unfold decode_failure. apply threaded_one; cbn [state_after];
    by destruct (exceptions_decode_failure codec failure (codec_state w)) as [[f s] r].
Qed.

Lemma threaded_encode_failure codec failure w :
  calls_threaded codec w [FailureEncode failure] (encode_failure codec failure w).
Proof.
  unfold encode_failure. apply threaded_one; cbn [state_after];
    by destruct (exceptions_encode_failure codec failure (codec_state w)) as [[f s] r].
Qed.

Ltac threaded_step :=
  first
    [ apply threaded_skip
    | apply threaded_within
    | apply threaded_and_then; [|intros ? ?]
    | apply threaded_decode_payloads
    | apply threaded_encode_payloads
    | apply threaded_decode_payload
    | apply threaded_encode_payload
    | apply threaded_memo_value
    | apply threaded_decode_failure
    | apply threaded_encode_failure
    | apply (threaded_if_present _ FailureDecode); intros ? ?;
        apply threaded_decode_failure
    | apply (threaded_if_present _ (single PayloadDecode)); intros ? ?;
        apply threaded_decode_payload
    | apply (threaded_if_present _ (single PayloadEncode)); intros ? ?;
        apply threaded_encode_payload
    | apply (threaded_for_each_value _ (fun v => PayloadDecode [v])); intros ? ?;
        apply threaded_memo_value
    | apply (threaded_for_each_value _ (single PayloadEncode)); intros ? ?;
        apply threaded_encode_payload ].

Lemma threaded_decode_job codec job w :
  calls_threaded codec w (job_calls job) (decode_job codec job w).
Proof.
  destruct job as [details other|arguments other|[| res | |] other
                  |[| [res|] | |] other|[failure other'|other'] other
                  |failure other|failure other
                  |input other|arguments continued_failure memo other|other];
    cbn [decode_job decode_activity_result decode_child_result job_calls outcome_calls
         optional_calls];
    repeat threaded_step.
Qed.

Lemma threaded_encode_command codec command w :
  calls_threaded codec w (command_calls command) (encode_command codec command w).
Proof.
  destruct command as [result other|arguments memo other|failure other
                      |[failure|[response|] other'|other'] other|arguments other
                      |arguments other|args other|input memo other|other];
    cbn [encode_command command_calls optional_calls]; repeat threaded_step.
Qed.

(** X10: the codec's surroundings go from call to call: when a traversal
    ends, returning or raising, their state is the one reached by making the
    calls it made, in the order of the tables, each from the state that the
    call before it left; what a call returned has no part in which calls come
    next. *)
Theorem state_goes_from_call_to_call codec :
  (forall act w,
      calls_threaded codec w (activation_calls act) (decode_activation codec act w))
  /\ (forall comp w,
      calls_threaded codec w (completion_calls comp) (encode_completion codec comp w)).
Proof.
  split.
  - intros act w. unfold decode_activation, activation_calls.
    apply threaded_within, threaded_for_each.
    intros job w'. apply threaded_decode_job.
  - intros [st other] w. unfold encode_completion, completion_calls. cbn [status].
    destruct st as [failure other'|commands other'|].
    + apply threaded_within, threaded_encode_failure.
    + apply threaded_within, threaded_for_each.
      intros command w'. apply threaded_encode_command.
    + apply (threaded_skip codec w).
Qed.

(** *** Where an exception comes from *)





















(** *** C5: the traversals follow the tables *)

Lemma all_returned_app codec (cs1 cs2 : list Call) s :
  all_returned codec (cs1 ++ cs2) s
  <-> all_returned codec cs1 s
      /\ all_returned codec cs2 (state_after_all codec cs1 s).
Proof.
  revert s. induction cs1 as [|c cs1 IH]; intros s; cbn; [tauto|].
  rewrite IH. unfold state_after_all. tauto.
Qed.

Lemma follows_one {T} codec w (c : Call) (run : T * World * option exn) :
  calls run.1.2 = calls w ++ [c] ->
  codec_state run.1.2 = state_after codec c (codec_state w) ->
  match run.2 with
  | None => returned codec c (codec_state w)
  | Some e => raised_by codec c (codec_state w) e
  end ->
  follows_table codec w [c] run.
Proof.
  intros Hc Hs Hend. exists [c], []. rewrite Hc, Hs. repeat split.
  destruct run.2 as [e|]; [by exists [], c|by cbn].
Qed.

Lemma follows_skip {T} codec w (t : T) : follows_table codec w [] (skip t w).
Proof. exists [], []. cbn. by rewrite app_nil_r. Qed.

Lemma follows_and_then {A T} codec w e1 e2 (m : A * World * option exn)
    (rebuild : A -> T) (k : A -> World -> T * World * option exn) :
  follows_table codec w e1 m ->
  (forall a w', follows_table codec w' e2 (k a w')) ->
  follows_table codec w (e1 ++ e2) (and_then m rebuild k).
Proof.
  intros (made & rest & -> & Hc & Hs & Hend) Hk.
  destruct m as [[a w1] [e|]]; cbn in *.
  - exists made, (rest ++ e2). by rewrite <- (assoc_L (++)).
  - destruct Hend as [-> Hall]. rewrite app_nil_r.
    destruct (Hk a w1) as (made2 & rest2 & -> & Hc2 & Hs2 & Hend2).
    exists (made ++ made2), rest2.
    rewrite Hc2, Hc, Hs2, Hs, state_after_all_app.
    split; [by rewrite (assoc_L (++))|]. split; [by rewrite (assoc_L (++))|].
    split; [done|].
    destruct (k a w1).2 as [e|].
    + destruct Hend2 as (before & c & -> & Hall2 & Hby).
      exists (made ++ before), c. rewrite state_after_all_app, <- Hs.
      split; [by rewrite (assoc_L (++))|]. split; [|done].
      apply all_returned_app. by rewrite <- Hs.
    + destruct Hend2 as [-> Hall2]. split; [done|].
      apply all_returned_app. by rewrite <- Hs.
Qed.

Lemma follows_within {A T} codec w e (m : A * World * option exn) (rebuild : A -> T) :
  follows_table codec w e m -> follows_table codec w e (within m rebuild).
Proof.
  intros H. unfold within. rewrite <- (app_nil_r e).
  apply follows_and_then; [done|].
  intros a w'. apply (follows_skip codec w' (rebuild a)).
Qed.

Lemma follows_if_present {T} codec (mk : T -> Call) (p : Proc T) :
  (forall t w, follows_table codec w [mk t] (p t w)) ->
  forall o w, follows_table codec w (optional_calls mk o) (if_present p o w).
Proof.
  intros Hp [t|] w; cbn.
  - by apply follows_within.
  - apply (follows_skip codec w None).
Qed.

Lemma follows_for_each {T} codec (f : T -> list Call) (p : Proc T) :
  (forall x w, follows_table codec w (f x) (p x w)) ->
  forall xs w, follows_table codec w (concat (f <$> xs)) (for_each p xs w).
Proof.
  intros Hp xs. induction xs as [|x xs IH]; intros w; cbn.
  - apply (follows_skip codec w []).
  - apply follows_and_then; [apply Hp|].
    intros a w'. apply follows_within, IH.
Qed.

Lemma follows_for_each_value {T} codec (mk : T -> Call) (p : Proc T) :
  (forall t w, follows_table codec w [mk t] (p t w)) ->
  forall memo w,
    follows_table codec w ((fun kv => mk kv.2) <$> memo) (for_each_value p memo w).
Proof.
  intros Hp memo w. unfold for_each_value.
  rewrite <- (concat_singletons (fun kv : string * T => mk kv.2)).
  apply (follows_for_each codec (fun kv : string * T => [mk kv.2])).
  intros kv w'. by apply follows_within.
Qed.

Lemma follows_decode_payloads codec payloads w :
  follows_table codec w (sequence_calls PayloadDecode payloads)
    (_decode_bridge_payloads codec payloads w).
Proof.
  destruct payloads as [|payload payloads].
  - apply (follows_skip codec w []).
  - unfold _decode_bridge_payloads. rewrite apply_to_bridge_payloads_cons.
    cbn [sequence_calls]. unfold codec_decode.
    destruct (decode codec _ (codec_state w)) as [s [e|result]] eqn:Hrun;
      apply follows_one;
      cbn [fst snd calls codec_state state_after raised_by returned];
      rewrite ?Hrun; cbn [fst snd]; eauto.
Qed.

Lemma follows_encode_payloads codec payloads w :
  follows_table codec w (sequence_calls PayloadEncode payloads)
    (_encode_bridge_payloads codec payloads w).
Proof.
  destruct payloads as [|payload payloads].
  - apply (follows_skip codec w []).
  - unfold _encode_bridge_payloads. rewrite apply_to_bridge_payloads_cons.
    cbn [sequence_calls]. unfold codec_encode.
    destruct (encode codec _ (codec_state w)) as [s [e|result]] eqn:Hrun;
      apply follows_one;
      cbn [fst snd calls codec_state state_after raised_by returned];
      rewrite ?Hrun; cbn [fst snd]; eauto.
Qed.

Lemma follows_decode_payload codec payload w :
  follows_table codec w [single PayloadDecode payload]
    (_decode_bridge_payload codec payload w).
Proof.
  unfold _decode_bridge_payload. rewrite apply_to_bridge_payload_eq.
  unfold single, codec_decode.
  destruct (decode codec _ (codec_state w)) as [s [e|[|new_payload rest]]] eqn:Hrun;
    apply follows_one;
      cbn [fst snd calls codec_state state_after raised_by returned];
      rewrite ?Hrun; cbn [fst snd]; eauto.
Qed.

Lemma follows_encode_payload codec payload w :
  follows_table codec w [single PayloadEncode payload]
    (_encode_bridge_payload codec payload w).
Proof.
  unfold _encode_bridge_payload. rewrite apply_to_bridge_payload_eq.
  unfold single, codec_encode.
  destruct (encode codec _ (codec_state w)) as [s [e|[|new_payload rest]]] eqn:Hrun;
    apply follows_one;
      cbn [fst snd calls codec_state state_after raised_by returned];
      rewrite ?Hrun; cbn [fst snd]; eauto.
Qed.

Lemma follows_memo_value codec val w :
  follows_table codec w [PayloadDecode [val]] (decode_memo_value codec val w).
Proof.
  rewrite decode_memo_value_eq. unfold codec_decode.
  destruct (decode codec _ (codec_state w)) as [s [e|[|new_payload rest]]] eqn:Hrun;
    apply follows_one;
      cbn [fst snd calls codec_state state_after raised_by returned];
      rewrite ?Hrun; cbn [fst snd]; eauto.
Qed.

Lemma follows_decode_failure codec failure w :
  follows_table codec w [FailureDecode failure] (decode_failure codec failure w).
Proof.
  unfold decode_failure.
  destruct (exceptions_decode_failure codec failure (codec_state w)) as [[f s] [e|]] eqn:Hrun;
    apply follows_one;
    cbn [fst snd calls codec_state state_after raised_by returned];
    by rewrite ?Hrun.
Qed.

Lemma follows_encode_failure codec failure w :
  follows_table codec w [FailureEncode failure] (encode_failure codec failure w).
Proof.
  unfold encode_failure.
  destruct (exceptions_encode_failure codec failure (codec_state w)) as [[f s] [e|]] eqn:Hrun;
    apply follows_one;
    cbn [fst snd calls codec_state state_after raised_by returned];
    by rewrite ?Hrun.
Qed.

Ltac follows_step :=
  first
    [ apply follows_skip
    | apply follows_within
    | apply follows_and_then; [|intros ? ?]
    | apply follows_decode_payloads
    | apply follows_encode_payloads
    | apply follows_decode_payload
    | apply follows_encode_payload
    | apply follows_memo_value
    | apply follows_decode_failure
    | apply follows_encode_failure
    | apply (follows_if_present _ FailureDecode); intros ? ?;
        apply follows_decode_failure
    | apply (follows_if_present _ (single PayloadDecode)); intros ? ?;
        apply follows_decode_payload
    | apply (follows_if_present _ (single PayloadEncode)); intros ? ?;
        apply follows_encode_payload
    | apply (follows_for_each_value _ (fun v => PayloadDecode [v])); intros ? ?;
        apply follows_memo_value
    | apply (follows_for_each_value _ (single PayloadEncode)); intros ? ?;
        apply follows_encode_payload ].

Lemma follows_decode_job codec job w :
  follows_table codec w (job_calls job) (decode_job codec job w).
Proof.
  destruct job as [details other|arguments other|[| res | |] other
                  |[| [res|] | |] other|[failure other'|other'] other
                  |failure other|failure other
                  |input other|arguments continued_failure memo other|other];
    cbn [decode_job decode_activity_result decode_child_result job_calls outcome_calls
         optional_calls];
    repeat follows_step.
Qed.

Lemma follows_encode_command codec command w :
  follows_table codec w (command_calls command) (encode_command codec command w).
Proof.
  destruct command as [result other|arguments memo other|failure other
                      |[failure|[response|] other'|other'] other|arguments other
                      |arguments other|args other|input memo other|other];
    cbn [encode_command command_calls optional_calls]; repeat follows_step.
Qed.

(** C5: [decode_activation] and [encode_completion] call the codecs as the
    transformation tables say, job by job or command by command in the order
    of the list and, within one of them, cell by cell in the order of its
    table row.  Each call is made from the state in which the call before it
    ended.  A run that returns has made every call of the table, and each of
    them returned.  A run that raises has made the calls of the table up to
    one of them: the calls before it returned, and the exception is the one
    the collaborator raised in that call (or [IndexError], when the codec
    returned no payload there); nothing is called after it. *)
Theorem calls_follow_the_tables codec :
  (forall act w,
      follows_table codec w (activation_calls act) (decode_activation codec act w))
  /\ (forall comp w,
      follows_table codec w (completion_calls comp) (encode_completion codec comp w)).
Proof.
  split.
  - intros act w. unfold decode_activation, activation_calls.
    apply follows_within, follows_for_each.
    intros job w'. apply follows_decode_job.
  - intros [st other] w. unfold encode_completion, completion_calls. cbn [status].
    destruct st as [failure other'|commands other'|].
    + apply follows_within, follows_encode_failure.
    + apply follows_within, follows_for_each.
      intros command w'. apply follows_encode_command.
    + apply (follows_skip codec w).
Qed.
End EngineFurther.

(** ** The further properties on the sample messages *)

Lemma counting_codec_never_raises : @never_raises sample_collab counting_codec.
Proof. repeat split; intros; by eexists _, _. Qed.

Lemma counting_codec_hands_back : @encode_hands_back sample_collab counting_codec.
Proof. split; intros; by eexists. Qed.

Lemma reverse_data_twice (p : ApiPayload) : reverse_data (reverse_data p) = p.
Proof.
  destruct p as [m d]. unfold reverse_data. cbn [api_metadata api_data].
  by rewrite reverse_involutive.
Qed.

Lemma reversing_codec_keeps_count : @keeps_count sample_collab reversing_codec.
Proof. intros payloads s s' result. split; intros [= _ <-]; apply length_fmap. Qed.

Lemma reversing_codec_undoes : @decode_undoes_encode sample_collab reversing_codec.
Proof.
  intros payloads s. eexists _, _. split; [reflexivity|].
  intros s2. eexists. cbn. do 2 f_equal.
  rewrite <- list_fmap_compose. rewrite <- (list_fmap_id payloads) at 2.
  apply list_fmap_ext. intros i p _. apply reverse_data_twice.
Qed.

Lemma good_collaborators_return_witness :
  @never_raises sample_collab counting_codec
  /\ @keeps_count sample_collab counting_codec
  /\ (@decode_activation sample_collab counting_codec scenario_A_with_memo sample_world).2
     = None
  /\ (@encode_completion sample_collab counting_codec sample_completion sample_world).2
     = None.
Proof.
  split; [exact counting_codec_never_raises|].
  split; [exact counting_codec_keeps_count|].
  split.
  - exact (proj1 (@good_collaborators_return sample_collab counting_codec
                    counting_codec_never_raises counting_codec_keeps_count)
             scenario_A_with_memo sample_world).
  - exact (proj2 (@good_collaborators_return sample_collab counting_codec
                    counting_codec_never_raises counting_codec_keeps_count)
             sample_completion sample_world).
Defined.

Lemma encode_completion_changes_nothing_witness :
  @encode_hands_back sample_collab counting_codec
  /\ (@encode_completion sample_collab counting_codec sample_completion sample_world).1.1
     = sample_completion.
Proof.
  split; [exact counting_codec_hands_back|].
  exact (proj1 (@encode_completion_changes_nothing sample_collab counting_codec
                  counting_codec_hands_back sample_completion sample_world)).
Defined.

Lemma encode_then_decode_restores_witness :
  @keeps_count sample_collab reversing_codec
  /\ @decode_undoes_encode sample_collab reversing_codec
  /\ (let payloads := [sample_payload Byte.x01; sample_payload Byte.x02] in
      let encoded :=
        @_encode_bridge_payloads sample_collab reversing_codec payloads sample_world in
      (@_decode_bridge_payloads sample_collab reversing_codec encoded.1.1 encoded.1.2).1.1
      = payloads).
Proof.
  split; [exact reversing_codec_keeps_count|].
  split; [exact reversing_codec_undoes|].
  exact (proj2 (proj2 (proj1 (@encode_then_decode_restores sample_collab reversing_codec
                  reversing_codec_keeps_count reversing_codec_undoes)
           [sample_payload Byte.x01; sample_payload Byte.x02] sample_world))).
Defined.

Lemma calls_follow_the_tables_witness :
  let run := @decode_activation sample_collab counting_codec scenario_A_with_memo
               sample_world in
  let down := @decode_activation sample_collab failing_codec scenario_A_with_memo
                sample_world in
  (@follows_table sample_collab _ counting_codec sample_world
     (activation_calls scenario_A_with_memo) run
   /\ run.2 = None
   /\ calls run.1.2
      = [@PayloadDecode sample_collab
           (from_bridge_payloads
              [sample_payload Byte.x01; sample_payload Byte.x02; sample_payload Byte.x03]);
         @FailureDecode sample_collab "continued"%string;
         @PayloadDecode sample_collab [from_bridge_payload (sample_payload Byte.x04)]])
  /\ (@follows_table sample_collab _ failing_codec sample_world
        (activation_calls scenario_A_with_memo) down
      /\ down.2 = Some (Raised "codec is down")
      /\ calls down.1.2
         = [@PayloadDecode sample_collab
              (from_bridge_payloads
                 [sample_payload Byte.x01; sample_payload Byte.x02;
                  sample_payload Byte.x03])]
      /\ down.1.1 = scenario_A_with_memo).
Proof.
  cbv zeta. split; (split; [|by vm_compute]).
  - exact (proj1 (@calls_follow_the_tables sample_collab counting_codec)
             scenario_A_with_memo sample_world).
  - exact (proj1 (@calls_follow_the_tables sample_collab failing_codec)
             scenario_A_with_memo sample_world).
Defined.
